(** * unreader: a rewindable byte-stream reader

    A shallow embedding of [unreader.go] (package [unreader]) and the
    properties of its cursor bookkeeping, replay path, rune decoding loop
    and lookback query.

    Conventions of the embedding:
    - Go's [int64] (and [int], taken to be 64 bits wide) is a [Z] kept in
      range by [Int64.wrap]; every addition and subtraction of the source is
      written with its wrap-around.
    - a byte is a [Z] in [0, 256); a byte slice is a [list byte] holding its
      contents, and a call that writes into a slice returns the new contents.
    - a run-time panic (slice bounds out of range) is an explicit outcome
      that carries the reader as the panic left it. *)

From Stdlib Require Import String ZArith List Lia Bool.
Import ListNotations.
Open Scope Z_scope.

(** A byte is an integer in [0, 256). *)
Abbreviation byte := Z (only parsing).

(* ------------------------------------------------------------------ *)
(** ** 64-bit signed integers *)

Module Int64.

Definition min_int : Z := - 2 ^ 63.
Definition max_int : Z := 2 ^ 63 - 1.

(** Two's complement wrap-around of an arbitrary integer. *)
Definition wrap (x : Z) : Z := (x + 2 ^ 63) mod 2 ^ 64 - 2 ^ 63.

Definition add (x y : Z) : Z := wrap (x + y).
Definition sub (x y : Z) : Z := wrap (x - y).

Definition in_range (x : Z) : Prop := min_int <= x <= max_int.

End Int64.

(* ------------------------------------------------------------------ *)
(** ** Go slices as lists *)

(** [s[lo:hi]] once the bounds are known to be legal. *)
Definition slice {A} (s : list A) (lo hi : Z) : list A :=
  firstn (Z.to_nat (hi - lo)) (skipn (Z.to_nat lo) s).

(** The builtin [copy(dst, src)]: the new contents of [dst] and the number
    of elements copied, [min(len(dst), len(src))]. *)
Definition copy {A} (dst src : list A) : list A * Z :=
  let n := Nat.min (length dst) (length src) in
  (firstn n src ++ skipn n dst, Z.of_nat n).

Definition len {A} (s : list A) : Z := Z.of_nat (length s).

(** The last [n] elements of a list (all of it when it is shorter). *)
Definition lastn {A} (n : nat) (s : list A) : list A :=
  skipn (length s - n) s.

(* ------------------------------------------------------------------ *)
(** ** The part of [unicode/utf8] that [ReadRune] calls

    [unicode/utf8] belongs to the Go standard library; the constants, the
    two tables and the two functions below follow its implementation. *)

Module utf8.

Definition RuneError : Z := 0xFFFD.
Definition MaxRune : Z := 0x10FFFF.
Definition UTFMax : Z := 4.

Definition maskx : Z := 0x3F.
Definition mask2 : Z := 0x1F.
Definition mask3 : Z := 0x0F.
Definition mask4 : Z := 0x07.

Definition locb : Z := 0x80.
Definition hicb : Z := 0xBF.

(** Entries of the [first] table: the low three bits are the length of
    the encoding, the high four bits index [acceptRanges]. *)
Definition xx : Z := 0xF1.
Definition as_ : Z := 0xF0.
Definition s1 : Z := 0x02.
Definition s2 : Z := 0x13.
Definition s3 : Z := 0x03.
Definition s4 : Z := 0x23.
Definition s5 : Z := 0x34.
Definition s6 : Z := 0x04.
Definition s7 : Z := 0x44.

Definition first (b : byte) : Z :=
  if (b <? 0x00) then xx
  else if (b <=? 0x7F) then as_
  else if (b <=? 0xC1) then xx
  else if (b <=? 0xDF) then s1
  else if (b =? 0xE0) then s2
  else if (b <=? 0xEC) then s3
  else if (b =? 0xED) then s4
  else if (b <=? 0xEF) then s3
  else if (b =? 0xF0) then s5
  else if (b <=? 0xF3) then s6
  else if (b =? 0xF4) then s7
  else xx.

(** [acceptRanges[i]] as a pair [(lo, hi)]; indices past the table's five
    used entries hold the zero range. *)
Definition acceptRanges (i : Z) : Z * Z :=
  if (i =? 0) then (locb, hicb)
  else if (i =? 1) then (0xA0, hicb)
  else if (i =? 2) then (locb, 0x9F)
  else if (i =? 3) then (0x90, hicb)
  else if (i =? 4) then (locb, 0x8F)
  else (0, 0).

Definition at_ (p : list byte) (i : nat) : byte := nth i p 0.

(** [utf8.FullRune]: does [p] begin with a full encoding of a rune?  An
    invalid encoding counts as full, since it decodes as a width-1 error
    rune. *)
Definition FullRune (p : list byte) : bool :=
  let n := len p in
  if n =? 0 then false
  else
    let x := first (at_ p 0) in
    if n >=? Z.land x 7 then true
    else
      let accept := acceptRanges (Z.shiftr x 4) in
      if (n >? 1) && ((at_ p 1 <? fst accept) || (snd accept <? at_ p 1))
      then true
      else if (n >? 2) && ((at_ p 2 <? locb) || (hicb <? at_ p 2))
      then true
      else false.

(** [utf8.DecodeRune]: the first rune of [p] and its width in bytes. *)
Definition DecodeRune (p : list byte) : Z * Z :=
  let n := len p in
  if n <? 1 then (RuneError, 0)
  else
    let p0 := at_ p 0 in
    let x := first p0 in
    if x >=? as_ then
      (if x =? xx then RuneError else p0, 1)
    else
      let sz := Z.land x 7 in
      let accept := acceptRanges (Z.shiftr x 4) in
      if n <? sz then (RuneError, 1)
      else
        let b1 := at_ p 1 in
        if (b1 <? fst accept) || (snd accept <? b1) then (RuneError, 1)
        else if sz <=? 2 then
          (Z.lor (Z.shiftl (Z.land p0 mask2) 6) (Z.land b1 maskx), 2)
        else
          let b2 := at_ p 2 in
          if (b2 <? locb) || (hicb <? b2) then (RuneError, 1)
          else if sz <=? 3 then
            (Z.lor (Z.lor (Z.shiftl (Z.land p0 mask3) 12)
                          (Z.shiftl (Z.land b1 maskx) 6))
                   (Z.land b2 maskx), 3)
          else
            let b3 := at_ p 3 in
            if (b3 <? locb) || (hicb <? b3) then (RuneError, 1)
            else
              (Z.lor (Z.lor (Z.lor (Z.shiftl (Z.land p0 mask4) 18)
                                   (Z.shiftl (Z.land b1 maskx) 12))
                            (Z.shiftl (Z.land b2 maskx) 6))
                     (Z.land b3 maskx), 4).

End utf8.

(* ------------------------------------------------------------------ *)
(** ** Errors *)

Inductive error : Type :=
| EOF                      (* io.EOF *)
| Errorf (msg : string)    (* fmt.Errorf(msg) *)
| SourceError (code : Z).  (* any other error value a source reports *)

(** The two errors of [Unread]; the specification calls both of them a
    rewind range error. *)
Definition RewindRangeError (e : error) : Prop :=
  e = Errorf "cursor < total bytes written" \/ e = Errorf "cursor < buffer size".

(* ------------------------------------------------------------------ *)
(** ** The circular byte buffer collaborator *)

Module circbuf.

(** Modelled from the spec: the package [github.com/freb/circbuf] is an
    external collaborator whose code is not part of this repository.  The
    buffer is modelled by its contract: a fixed capacity, the retained
    window oldest-to-newest, and the count of all bytes ever written (an
    [int64], as the comparisons in [Unread] require). *)
Record Buffer : Type := mkBuffer {
  size : Z;
  data : list byte;
  written : Z
}.

(** Modelled from the spec: construction fails on a capacity that is not
    positive; otherwise the buffer starts empty. *)
Definition NewBuffer (sz : Z) : Buffer + error :=
  if sz <=? 0 then inr (Errorf "Size must be positive")
  else inl (mkBuffer sz [] 0).

(** Modelled from the spec: [write] appends, discards the oldest bytes
    once the capacity is exceeded, and adds the input length to the
    total-written counter whether or not it overwrote. *)
Definition Write (b : Buffer) (buf : list byte) : Buffer :=
  mkBuffer (size b)
           (lastn (Z.to_nat (size b)) (data b ++ buf))
           (Int64.add (written b) (len buf)).

(** Modelled from the spec: [bytes()] is the retained window, oldest byte
    first; its length never exceeds the capacity. *)
Definition Bytes (b : Buffer) : list byte := data b.

(** Modelled from the spec: [size()] is the capacity fixed at construction. *)
Definition Size (b : Buffer) : Z := size b.

(** Modelled from the spec: [totalWritten()] counts every byte ever written,
    the overwritten ones included. *)
Definition TotalWritten (b : Buffer) : Z := written b.

End circbuf.

(* ------------------------------------------------------------------ *)
(** ** The byte source *)

(** [io.Reader]: [rd_Read s k] is one call of [Read] on a span of length
    [k]; it yields the bytes it stored at the front of the span, the error
    it reported and the source afterwards.  The law is the interface's own
    contract, [0 <= n <= len(p)]. *)
Class Reader (S : Type) : Type := {
  rd_Read : S -> nat -> list byte * option error * S;
  rd_Read_len : forall s k, (length (fst (fst (rd_Read s k))) <= k)%nat
}.

(* ------------------------------------------------------------------ *)
(** ** The reader *)

Section Unreader.

Context {S : Type} {RS : Reader S}.

(** [runeBuf] is a slice of fixed length [utf8.MaxRune]; it is modelled by
    the function from an index to the byte stored there. *)
Record unreader : Type := mkUnreader {
  cb : circbuf.Buffer;
  rd : S;
  bytesRead : Z;
  cursor : Z;
  runeBuf : Z -> byte;
  runePos : Z
}.

Definition set_cursor (u : unreader) (c : Z) : unreader :=
  mkUnreader (cb u) (rd u) (bytesRead u) c (runeBuf u) (runePos u).

Definition set_runePos (u : unreader) (i : Z) : unreader :=
  mkUnreader (cb u) (rd u) (bytesRead u) (cursor u) (runeBuf u) i.

(** The store [u.runeBuf[i] = v]. *)
Definition set_runeBuf (u : unreader) (i : Z) (v : byte) : unreader :=
  mkUnreader (cb u) (rd u) (bytesRead u) (cursor u)
             (fun j => if j =? i then v else runeBuf u j) (runePos u).

(** The contents of [u.runeBuf[lo:hi]]. *)
Definition runeBuf_view (u : unreader) (lo hi : Z) : list byte :=
  map (fun i => runeBuf u (lo + Z.of_nat i)) (seq 0 (Z.to_nat (hi - lo))).

(** The result of a call: it returned, or it panicked; either way the
    reader is left in some state. *)
Inductive outcome (A : Type) : Type :=
| Return (u : unreader) (a : A)
| Panic (u : unreader).
Arguments Return {A} u a.
Arguments Panic {A} u.

Definition state_of {A} (o : outcome A) : unreader :=
  match o with Return u _ => u | Panic u => u end.

Definition Bytes (u : unreader) : list byte := circbuf.Bytes (cb u).
Definition BytesRead (u : unreader) : Z := bytesRead u.
Definition Cursor (u : unreader) : Z := cursor u.

Definition NewUnreader (size : Z) (r : S) : unreader + error :=
  match circbuf.NewBuffer size with
  | inr err => inr err
  | inl b => inl (mkUnreader b r 0 0 (fun _ => 0) 0)
  end.

Definition Unread (u : unreader) (c : Z) : unreader * option error :=
  let newCursor := Int64.sub (cursor u) c in
  if circbuf.TotalWritten (cb u) <? Int64.sub (bytesRead u) newCursor
  then (u, Some (Errorf "cursor < total bytes written"))
  else if circbuf.Size (cb u) <? Int64.sub (bytesRead u) newCursor
  then (u, Some (Errorf "cursor < buffer size"))
  else (set_cursor u newCursor, None).

(** [Read(p)]: the new contents of [p], [n] and [err]. *)
Definition Read (u : unreader) (p : list byte)
  : outcome (list byte * Z * option error) :=
  if len p =? 0 then Return u (p, 0, None)
  else if cursor u =? bytesRead u then
    let '(chunk, err, r') := rd_Read (rd u) (length p) in
    let n := len chunk in
    let p' := chunk ++ skipn (length chunk) p in
    Return (mkUnreader (circbuf.Write (cb u) (slice p' 0 n)) r'
                       (Int64.add (bytesRead u) n)
                       (Int64.add (cursor u) n)
                       (runeBuf u) (runePos u))
           (p', n, err)
  else
    let b := circbuf.Bytes (cb u) in
    let lo := Int64.sub (len b) (Int64.sub (bytesRead u) (cursor u)) in
    if (lo <? 0) || (len b <? lo) then Panic u
    else
      let '(p', n) := copy p (slice b lo (len b)) in
      Return (set_cursor u (Int64.add (cursor u) n)) (p', n, None).

(** One entry per call of [Read] made by [ReadRune]: the length of the
    span passed, the bytes that call delivered ([p[:n]]) and the error it
    returned. *)
Record ReadCall : Type := mkReadCall {
  call_span : Z;
  call_bytes : list byte;
  call_err : option error
}.

Definition trace : Type := list ReadCall.

(** The loop of [ReadRune].  The fuel is the loop's own bound: [runePos]
    grows by one per iteration and the guard stops it at [utf8.MaxRune]. *)
Fixpoint ReadRune_loop (fuel : nat) (u : unreader) (tr : trace)
  : outcome (option error) * trace :=
  if negb (utf8.FullRune (runeBuf_view u 0 (runePos u)))
     && (runePos u <? utf8.MaxRune)
  then
    match fuel with
    | O => (Return u None, tr)
    | Datatypes.S fuel' =>
        if (runePos u <? 0) || (utf8.MaxRune <? runePos u + 1)
        then (Panic u, tr)
        else
          let p := runeBuf_view u (runePos u) (runePos u + 1) in
          match Read u p with
          | Panic u' => (Panic u', tr)
          | Return u' (p', n, err) =>
              let u'' := set_runeBuf u' (runePos u') (nth 0 p' 0) in
              let tr' := tr ++ [mkReadCall (len p) (slice p' 0 n) err] in
              match err with
              | Some e => (Return u'' (Some e), tr')
              | None =>
                  ReadRune_loop fuel'
                    (set_runePos u'' (Int64.add (runePos u'') 1)) tr'
              end
          end
    end
  else (Return u None, tr).

(** [ReadRune] together with the trace of its calls of [Read]. *)
Definition ReadRune_traced (u : unreader)
  : outcome (Z * Z * option error) * trace :=
  let u0 := set_runePos u 0 in
  match ReadRune_loop (Z.to_nat utf8.MaxRune) u0 [] with
  | (Panic u', tr) => (Panic u', tr)
  | (Return u' (Some e), tr) => (Return u' (0, 0, Some e), tr)
  | (Return u' None, tr) =>
      if utf8.MaxRune <? runePos u' + 1 then (Panic u', tr)
      else
        let '(r, size) :=
          utf8.DecodeRune (runeBuf_view u' 0 (runePos u' + 1)) in
        (Return u' (r, size, None), tr)
  end.

Definition ReadRune (u : unreader) : outcome (Z * Z * option error) :=
  fst (ReadRune_traced u).

(** [LastBytes(n)].  The view [b[s:e]] is legal when [0 <= s <= e] and [e]
    is within the capacity of [b], taken here to be its length. *)
Definition LastBytes (u : unreader) (n : Z) : outcome (list byte) :=
  let b := Bytes u in
  let l := len b in
  let offset := Int64.sub (bytesRead u) (cursor u) in
  let t := Int64.sub (Int64.sub l offset) n in
  let s := if t >? 0 then t else 0 in
  let e := Int64.sub l offset in
  if (s <? 0) || (e <? s) || (l <? e) then Panic u
  else Return u (slice b s e).

(** *** Sequences of calls *)

Inductive call : Type :=
| CallRead (p : list byte)
| CallUnread (c : Z)
| CallReadRune
| CallLastBytes (n : Z).

(** The reader after one call, whatever the call returned. *)
Definition exec (u : unreader) (c : call) : unreader :=
  match c with
  | CallRead p => state_of (Read u p)
  | CallUnread c => fst (Unread u c)
  | CallReadRune => state_of (ReadRune u)
  | CallLastBytes n => state_of (LastBytes u n)
  end.

Definition run (u : unreader) (cs : list call) : unreader :=
  fold_left exec cs u.

(** The states a freshly constructed reader can get into. *)
Definition reachable (u : unreader) : Prop :=
  exists size r u0 cs, NewUnreader size r = inl u0 /\ u = run u0 cs.

(** Bytes fetched but not yet delivered again, as the code computes it. *)
Definition pending (u : unreader) : Z :=
  Int64.sub (bytesRead u) (cursor u).

(** *** What the caller has been given *)

(** [consumed u log]: the reader [u] results from a fresh reader by calls
    that returned, and [log] holds, in order, the bytes its calls of
    [Read] (those of [ReadRune] included) delivered and that have not been
    unread since: a [Read] appends what it delivered, a successful
    [Unread(c)] takes the last [c] bytes back.  The counts passed to
    [Unread] are not negative and the sum [pending + c] stays an
    [int64]. *)
Inductive consumed : unreader -> list byte -> Prop :=
| consumed_New size r u :
    size <= Int64.max_int ->
    NewUnreader size r = inl u ->
    consumed u []
| consumed_Read u log p u' p' n err :
    consumed u log ->
    Read u p = Return u' (p', n, err) ->
    consumed u' (log ++ slice p' 0 n)
| consumed_Unread u log c u' :
    consumed u log ->
    0 <= c -> pending u + c <= Int64.max_int ->
    Unread u c = (u', None) ->
    consumed u' (firstn (length log - Z.to_nat c) log)
| consumed_Unread_refused u log c u' e :
    consumed u log ->
    Unread u c = (u', Some e) ->
    consumed u' log
| consumed_ReadRune u log u' res tr :
    consumed u log ->
    ReadRune_traced u = (Return u' res, tr) ->
    consumed u' (log ++ concat (map call_bytes tr))
| consumed_LastBytes u log n u' bs :
    consumed u log ->
    LastBytes u n = Return u' bs ->
    consumed u' log.

(** *** Reading without unreading *)

(** A sequence of calls of [Read], one per span, and the bytes they
    delivered, in order; [None] if a call panics. *)
Fixpoint Reads (u : unreader) (ps : list (list byte))
  : option (unreader * list byte) :=
  match ps with
  | [] => Some (u, [])
  | p :: ps' =>
      match Read u p with
      | Panic _ => None
      | Return u' (p', n, _) =>
          match Reads u' ps' with
          | None => None
          | Some (u'', rest) => Some (u'', slice p' 0 n ++ rest)
          end
      end
  end.

(** The bytes the source itself produces when it is asked, in turn, for
    spans of the lengths [ks]; [Read] does not consult the source for an
    empty span. *)
Fixpoint produced (r : S) (ks : list nat) : list byte * S :=
  match ks with
  | [] => ([], r)
  | O :: ks' => produced r ks'
  | k :: ks' =>
      let '(chunk, _, r') := rd_Read r k in
      let '(rest, r'') := produced r' ks' in
      (chunk ++ rest, r'')
  end.

(** *** Predicates used in the statements *)


(** No call of the trace reported an error. *)
Definition quiet (tr : trace) : Prop :=
  Forall (fun c => call_err c = None) tr.

(** Every call of the trace was made on a span of one byte, and delivered
    at most that byte. *)
Definition single_byte (tr : trace) : Prop :=
  Forall (fun c => call_span c = 1 /\ len (call_bytes c) <= 1) tr.

(** No proper prefix [runeBuf[:j]], [j < k], holds a full rune. *)
Definition unfinished (u : unreader) (k : Z) : Prop :=
  forall j, 0 <= j < k -> utf8.FullRune (runeBuf_view u 0 j) = false.

(** What the loop of [ReadRune] guarantees about its result and trace. *)
Definition loop_post (o : outcome (option error)) (tr : trace) : Prop :=
  len tr <= utf8.UTFMax /\ single_byte tr /\
  match o with
  | Return u' (Some e) =>
      exists tr0 c, tr = tr0 ++ [c] /\ quiet tr0 /\ call_err c = Some e /\
                    runePos u' = len tr0
  | Return u' None =>
      quiet tr /\ runePos u' = len tr /\
      utf8.FullRune (runeBuf_view u' 0 (len tr)) = true /\
      unfinished u' (len tr)
  | Panic u' => quiet tr
  end.

(** The reader agrees with the bytes fetched so far, [stream]: the buffer
    retains their last [size] bytes and has counted them all, the pending
    span lies within the retained window, and [log] is the part of
    [stream] before the cursor. *)
Definition coherent (u : unreader) (stream log : list byte) : Prop :=
  0 < circbuf.size (cb u) <= Int64.max_int /\
  circbuf.data (cb u) = lastn (Z.to_nat (circbuf.size (cb u))) stream /\
  circbuf.written (cb u) = Int64.wrap (len stream) /\
  bytesRead u = Int64.wrap (len stream) /\
  Int64.in_range (cursor u) /\
  0 <= pending u <= len (circbuf.data (cb u)) /\
  log = firstn (length stream - Z.to_nat (pending u)) stream.

(** The bytes the calls of a trace delivered, in order. *)
Definition gathered (tr : trace) : list byte :=
  concat (map call_bytes tr).

(** Every call of the trace delivered exactly one byte. *)
Definition one_byte_each (tr : trace) : Prop :=
  Forall (fun c => len (call_bytes c) = 1) tr.

(** [gathering u tr w]: started on [u], the loop of [ReadRune] makes the
    calls [tr] of [Read] and arrives at [w].  Before each call the bytes
    gathered are not a full rune and [runePos] is below the bound; the call
    is made on the one-byte span at [runePos] and returns without error;
    after it the byte is in the scratch area and [runePos] has grown by
    one. *)
Inductive gathering : unreader -> trace -> unreader -> Prop :=
| gathering_stop u : gathering u [] u
| gathering_step u u' p' n tr w :
    utf8.FullRune (runeBuf_view u 0 (runePos u)) = false ->
    0 <= runePos u < utf8.MaxRune ->
    Read u (runeBuf_view u (runePos u) (runePos u + 1))
      = Return u' (p', n, None) ->
    gathering (set_runePos (set_runeBuf u' (runePos u') (nth 0 p' 0))
                 (Int64.add (runePos u') 1)) tr w ->
    gathering u (mkReadCall 1 (slice p' 0 n) None :: tr) w.

(** The state of the loop of [ReadRune] after one more call of [Read]:
    the byte is stored at [runePos], which grows by one. *)
Definition gather_next (u : unreader) : unreader :=
  match Read u (runeBuf_view u (runePos u) (runePos u + 1)) with
  | Return u' (p', _, _) =>
      set_runePos (set_runeBuf u' (runePos u') (nth 0 p' 0))
                  (Int64.add (runePos u') 1)
  | Panic x => x
  end.

End Unreader.

Arguments unreader S : clear implicits.
Arguments outcome S : clear implicits.
Arguments Return {S A} u a.
Arguments Panic {S A} u.

(* ------------------------------------------------------------------ *)
(** ** A concrete source *)

(** A source over a fixed byte string, in the manner of [bytes.Reader]: it
    hands out as many of the remaining bytes as fit, and reports [EOF] once
    none remain. *)
Definition bytesReader_Read (s : list byte) (k : nat)
  : list byte * option error * list byte :=
  match s with
  | [] => ([], Some EOF, [])
  | _ => (firstn k s, None, skipn k s)
  end.

#[export] Instance bytesReader : Reader (list byte) :=
  {| rd_Read := bytesReader_Read;
     rd_Read_len := ltac:(intros [|x s] k; simpl;
                          [lia | apply (firstn_le_length k (x :: s))]) |}.

(** A source that is never ready: every call delivers no byte and reports
    no error, which the interface allows. *)
Definition idleReader_Read (s : unit) (k : nat)
  : list byte * option error * unit := ([], None, tt).

#[export] Instance idleReader : Reader unit :=
  {| rd_Read := idleReader_Read;
     rd_Read_len := ltac:(intros s k; simpl; lia) |}.

(** The bytes of "hello world". *)
Definition helloWorld : list byte :=
  [104; 101; 108; 108; 111; 32; 119; 111; 114; 108; 100].

(** [NewUnreader(16, r)] over the source "hello world". *)
Definition hello16 : unreader (list byte) :=
  mkUnreader (circbuf.mkBuffer 16 [] 0) helloWorld 0 0 (fun _ => 0) 0.

(** [hello16] after [Read] has delivered "hello". *)
Definition hello16_read5 : unreader (list byte) :=
  run hello16 [CallRead [0; 0; 0; 0; 0]].

(** [NewUnreader(16, r)] over a source that holds the bytes [C2 41 42]: a
    lead byte of a two-byte encoding followed by the letters "AB". *)
Definition stray16 : unreader (list byte) :=
  mkUnreader (circbuf.mkBuffer 16 [] 0) [0xC2; 0x41; 0x42] 0 0 (fun _ => 0) 0.

(** [NewUnreader(16, r)] over a source that holds the four bytes of the
    encoding of U+1F600. *)
Definition grin16 : unreader (list byte) :=
  mkUnreader (circbuf.mkBuffer 16 [] 0) [0xF0; 0x9F; 0x98; 0x80] 0 0
             (fun _ => 0) 0.

(** [NewUnreader(16, r)] over the source that is never ready. *)
Definition idle16 : unreader unit :=
  mkUnreader (circbuf.mkBuffer 16 [] 0) tt 0 0 (fun _ => 0) 0.

(** [NewUnreader(16, r)] over a source that ends after the first two bytes
    [E2 82] of a three-byte encoding. *)
Definition trunc16 : unreader (list byte) :=
  mkUnreader (circbuf.mkBuffer 16 [] 0) [0xE2; 0x82] 0 0 (fun _ => 0) 0.

(** [trunc16] once the loop of [ReadRune] has gathered its two bytes. *)
Definition trunc16_gathered : unreader (list byte) :=
  gather_next (gather_next (set_runePos trunc16 0)).

(** [NewUnreader(16, r)] over a source that is at its end. *)
Definition empty16 : unreader (list byte) :=
  mkUnreader (circbuf.mkBuffer 16 [] 0) [] 0 0 (fun _ => 0) 0.

(* ------------------------------------------------------------------ *)
(** * Facts about 64-bit arithmetic *)

Module Int64Facts.
Import Int64.

Lemma wrap_range x : in_range (wrap x).
Proof.
  unfold in_range, wrap, min_int, max_int.
  pose proof (Z.mod_pos_bound (x + 2 ^ 63) (2 ^ 64) ltac:(lia)). lia.
Qed.

Lemma wrap_small x : in_range x -> wrap x = x.
Proof.
  unfold in_range, wrap, min_int, max_int. intros H.
  rewrite Z.mod_small by lia. lia.
Qed.

Lemma wrap_congr x y k : x = y + k * 2 ^ 64 -> wrap x = wrap y.
Proof.
  intros ->. unfold wrap. f_equal.
  replace (y + k * 2 ^ 64 + 2 ^ 63) with (y + 2 ^ 63 + k * 2 ^ 64) by ring.
  apply Z_mod_plus_full.
Qed.

Lemma wrap_decomp x : exists k, wrap x = x + k * 2 ^ 64.
Proof.
  exists (- ((x + 2 ^ 63) / 2 ^ 64)). unfold wrap.
  rewrite Z.mod_eq by (apply Z.pow_nonzero; lia). ring.
Qed.

Lemma wrap_wrap_add x y : wrap (wrap x + y) = wrap (x + y).
Proof.
  destruct (wrap_decomp x) as [k ->].
  apply (wrap_congr _ _ k). ring.
Qed.

Lemma wrap_wrap_sub x y : wrap (wrap x - y) = wrap (x - y).
Proof.
  destruct (wrap_decomp x) as [k ->].
  apply (wrap_congr _ _ k). ring.
Qed.

Lemma wrap_sub_wrap x y : wrap (x - wrap y) = wrap (x - y).
Proof.
  destruct (wrap_decomp y) as [k ->].
  apply (wrap_congr _ _ (- k)). ring.
Qed.

Lemma sub_self x : sub x x = 0.
Proof. unfold sub. rewrite Z.sub_diag. reflexivity. Qed.

Lemma sub_eq_0 x y : in_range x -> in_range y -> sub x y = 0 -> x = y.
Proof.
  unfold sub, in_range, min_int, max_int. intros Hx Hy H.
  destruct (wrap_decomp (x - y)) as [k Hk]. rewrite H in Hk.
  assert (k = 0) by lia. lia.
Qed.

Lemma wrap_le_nonneg x : 0 <= x -> wrap x <= x.
Proof.
  intros Hx. pose proof (wrap_range x) as Hr.
  unfold in_range, min_int, max_int in Hr.
  destruct (wrap_decomp x) as [k Hk].
  assert (k <= 0) by lia. lia.
Qed.

Lemma add_sub_cancel b c n : sub (add b n) (add c n) = sub b c.
Proof.
  unfold sub, add. rewrite wrap_wrap_sub, wrap_sub_wrap.
  f_equal. lia.
Qed.

Lemma sub_add_r b c n : sub b (add c n) = wrap (sub b c - n).
Proof.
  unfold sub, add. rewrite wrap_sub_wrap, wrap_wrap_sub.
  f_equal. lia.
Qed.

Lemma sub_sub_r b c n : sub b (sub c n) = wrap (sub b c + n).
Proof.
  unfold sub. rewrite wrap_sub_wrap, wrap_wrap_add.
  f_equal. lia.
Qed.

End Int64Facts.

(* ------------------------------------------------------------------ *)
(** * Facts about slices *)

Section SliceFacts.

Context {A : Type}.
Implicit Types s t : list A.

Lemma len_nonneg s : 0 <= len s.
Proof. unfold len. lia. Qed.

Lemma len_app s t : len (s ++ t) = len s + len t.
Proof. unfold len. rewrite length_app. lia. Qed.

Lemma slice_prefix s t : slice (s ++ t) 0 (len s) = s.
Proof.
  unfold slice, len. simpl. rewrite Z.sub_0_r, Nat2Z.id.
  rewrite firstn_app, Nat.sub_diag, firstn_all. simpl. apply app_nil_r.
Qed.

Lemma slice_to_end s lo :
  0 <= lo <= len s -> slice s lo (len s) = skipn (Z.to_nat lo) s.
Proof.
  unfold slice, len. intros H. apply firstn_all2.
  rewrite length_skipn. lia.
Qed.

Lemma length_lastn n s : length (lastn n s) = Nat.min n (length s).
Proof. unfold lastn. rewrite length_skipn. lia. Qed.

Lemma lastn_app_lastn n s t : lastn n (lastn n s ++ t) = lastn n (s ++ t).
Proof.
  unfold lastn. rewrite !length_app, length_skipn.
  rewrite !skipn_app, length_skipn, skipn_skipn.
  f_equal.
  - f_equal. lia.
  - f_equal. lia.
Qed.

Lemma firstn_plus a m s :
  firstn (a + m) s = firstn a s ++ firstn m (skipn a s).
Proof.
  revert s. induction a as [|a IH]; intros s; [reflexivity|].
  destruct s as [|x s]; simpl.
  - now rewrite firstn_nil.
  - now rewrite IH.
Qed.

Lemma skipn_lastn n k s :
  (k <= Nat.min n (length s))%nat ->
  skipn (length (lastn n s) - k) (lastn n s) = skipn (length s - k) s.
Proof.
  intros H. rewrite length_lastn. unfold lastn.
  rewrite skipn_skipn. f_equal. lia.
Qed.

End SliceFacts.

(* ------------------------------------------------------------------ *)
(** * Properties of the reader *)

Section Properties.

Context {S : Type} {RS : Reader S}.
Implicit Types u : unreader S.

Import Int64Facts.

(** ** Unread *)

(** [Unread(c)] fails, with a rewind range error, exactly when the
    pending span it computes, [bytesRead - (cursor - c)] in [int64]
    arithmetic, exceeds the capacity of the buffer or its total-written
    count.  A failing call leaves the reader as it was, a
    successful one changes the cursor and nothing else.  The span is the
    plain difference whenever neither subtraction overflows. *)
Lemma Unread_range_check u (c : Z) :
  let span := Int64.sub (bytesRead u) (Int64.sub (cursor u) c) in
  ((exists e, snd (Unread u c) = Some e) <->
     (circbuf.Size (cb u) < span \/ circbuf.TotalWritten (cb u) < span))
  /\ (forall e, snd (Unread u c) = Some e ->
        RewindRangeError e /\ fst (Unread u c) = u)
  /\ (snd (Unread u c) = None ->
        let u' := fst (Unread u c) in
        cursor u' = Int64.sub (cursor u) c /\
        bytesRead u' = bytesRead u /\ cb u' = cb u /\ rd u' = rd u /\
        runeBuf u' = runeBuf u /\ runePos u' = runePos u)
  /\ (Int64.in_range (cursor u - c) ->
      Int64.in_range (bytesRead u - (cursor u - c)) ->
      span = bytesRead u - (cursor u - c)).
Proof.
  intros span.
  assert (Hspan : Int64.in_range (cursor u - c) ->
                  Int64.in_range (bytesRead u - (cursor u - c)) ->
                  span = bytesRead u - (cursor u - c)).
  { intros H1 H2. subst span. unfold Int64.sub.
    rewrite (wrap_small _ H1). apply wrap_small, H2. }
  unfold Unread. fold span.
  destruct (Z.ltb_spec (circbuf.TotalWritten (cb u)) span) as [Hw | Hw];
    [| destruct (Z.ltb_spec (circbuf.Size (cb u)) span) as [Hs | Hs]];
    simpl; (split; [| split; [| split; [| exact Hspan]]]).
  - split; [intros _; lia | intros _; eexists; reflexivity].
  - intros e [= <-]. split; [left | ]; reflexivity.
  - intros [=].
  - split; [intros _; lia | intros _; eexists; reflexivity].
  - intros e [= <-]. split; [right | ]; reflexivity.
  - intros [=].
  - split; [intros [e [=]] | lia].
  - intros e [=].
  - intros _. repeat split; reflexivity.
Qed.

(** ** The total-written count mirrors the fetch counter *)






(** ** What one call of Read does to the span and to the rune scratch *)

Lemma Read_frame u p u' p' n err :
  Read u p = Return u' (p', n, err) ->
  runeBuf u' = runeBuf u /\ runePos u' = runePos u /\
  length p' = length p /\ 0 <= n <= len p /\ len (slice p' 0 n) = n.
Proof.
  unfold Read.
  destruct (Z.eqb_spec (len p) 0) as [E0|E0].
  { intros [= <- <- <- <-]. unfold slice, len in *. simpl.
    repeat split; try reflexivity; lia. }
  destruct (cursor u =? bytesRead u).
  - pose proof (rd_Read_len (rd u) (length p)) as Hle.
    destruct (rd_Read (rd u) (length p)) as [[chunk e] r']. simpl in Hle.
    intros [= <- <- <- <-]. simpl.
    rewrite slice_prefix, length_app, length_skipn. unfold len.
    repeat split; try reflexivity; lia.
  - destruct (_ || _); [discriminate|].
    unfold copy. intros [= <- <- <- <-]. simpl.
    set (src := slice _ _ _). set (m := Nat.min _ _).
    assert (Hf : length (firstn m src) = m)
      by (rewrite length_firstn; subst m; lia).
    assert (Hn : Z.of_nat m = len (firstn m src)) by (unfold len; lia).
    split; [reflexivity | split; [reflexivity | split; [| split]]].
    + rewrite length_app, length_skipn, Hf. subst m. lia.
    + unfold len. subst m. lia.
    + rewrite Hn at 1. rewrite slice_prefix. symmetry. exact Hn.
Qed.

(** ** The rune scratch area *)

Lemma len_runeBuf_view u lo hi :
  lo <= hi -> len (runeBuf_view u lo hi) = hi - lo.
Proof.
  intros H. unfold runeBuf_view, len.
  rewrite length_map, length_seq. lia.
Qed.

Lemma runeBuf_view_ext u (v : unreader S) lo hi :
  (forall j, lo <= j < hi -> runeBuf u j = runeBuf v j) ->
  runeBuf_view u lo hi = runeBuf_view v lo hi.
Proof.
  intros H. unfold runeBuf_view. apply map_ext_in.
  intros i Hi. apply in_seq in Hi. apply H. lia.
Qed.

Lemma first_size_le b : Z.land (utf8.first b) 7 <= 4.
Proof.
  unfold utf8.first.
  repeat match goal with
         | |- context [if ?c then _ else _] => destruct c
         end; vm_compute; discriminate.
Qed.

(** Four bytes always hold a full rune, valid or not. *)
Lemma FullRune_UTFMax p : utf8.UTFMax <= len p -> utf8.FullRune p = true.
Proof.
  unfold utf8.UTFMax, utf8.FullRune. intros H.
  destruct (Z.eqb_spec (len p) 0); [lia|].
  pose proof (first_size_le (utf8.at_ p 0)) as Hs.
  destruct (Z.geb_spec (len p) (Z.land (utf8.first (utf8.at_ p 0)) 7));
    [reflexivity | lia].
Qed.

(** ** The loop of ReadRune *)

Lemma ReadRune_loop_post fuel : forall u tr o tr',
  runePos u = len tr -> len tr <= utf8.UTFMax ->
  utf8.UTFMax - len tr <= Z.of_nat fuel ->
  quiet tr -> single_byte tr -> unfinished u (len tr) ->
  ReadRune_loop fuel u tr = (o, tr') ->
  loop_post o tr'.
Proof.
  unfold utf8.UTFMax.
  induction fuel as [|fuel IH]; intros u tr o tr' Hpos Hlen Hfuel Hq Hs Hu;
    simpl; rewrite Hpos;
    destruct (utf8.FullRune (runeBuf_view u 0 (len tr))) eqn:EF; simpl;
    try (intros [= <- <-]; unfold loop_post, utf8.UTFMax;
         rewrite Hpos; now auto).
  - (* no fuel: four bytes are in, so the rune is full *)
    rewrite FullRune_UTFMax in EF; [discriminate|].
    rewrite len_runeBuf_view; pose proof (len_nonneg tr);
      unfold utf8.UTFMax; lia.
  - assert (Hlt : len tr < 4).
    { destruct (Z.eq_dec (len tr) 4) as [E|E]; [|lia].
      rewrite FullRune_UTFMax in EF; [discriminate|].
      rewrite len_runeBuf_view; unfold utf8.UTFMax; lia. }
    pose proof (len_nonneg tr) as H0.
    replace (len tr <? utf8.MaxRune) with true
      by (symmetry; apply Z.ltb_lt; unfold utf8.MaxRune; lia).
    replace ((len tr <? 0) || (utf8.MaxRune <? len tr + 1)) with false.
    2:{ symmetry. apply orb_false_iff. split; apply Z.ltb_ge;
        unfold utf8.MaxRune; lia. }
    set (p := runeBuf_view u (len tr) (len tr + 1)).
    assert (Hp : len p = 1) by (subst p; rewrite len_runeBuf_view; lia).
    destruct (Read u p) as [u' [[p' n] err] | u'] eqn:ER.
    2:{ intros [= <- <-]. unfold loop_post, utf8.UTFMax. auto with zarith. }
    destruct (Read_frame _ _ _ _ _ _ ER) as (Hb & Hr & Hl & Hn & Hsl).
    set (c := mkReadCall (len p) (slice p' 0 n) err).
    assert (Hs' : single_byte (tr ++ [c])).
    { apply Forall_app. split; [exact Hs|]. constructor; [|constructor].
      subst c. simpl. lia. }
    assert (Hlen' : len (tr ++ [c]) = len tr + 1)
      by (rewrite len_app; reflexivity).
    destruct err as [e|].
    + intros [= <- <-]. unfold loop_post, utf8.UTFMax.
      split; [lia | split; [exact Hs'|]].
      exists tr, c. simpl. rewrite Hr. auto.
    + apply IH; cbn [runePos set_runePos set_runeBuf];
        rewrite ?Hr, ?Hpos, ?Hlen'.
      * unfold Int64.add. apply wrap_small.
        unfold Int64.in_range, Int64.min_int, Int64.max_int. lia.
      * lia.
      * lia.
      * apply Forall_app. split; [exact Hq|]. constructor; [|constructor].
        reflexivity.
      * exact Hs'.
      * intros j Hj.
        rewrite <- (runeBuf_view_ext u) .
        -- destruct (Z.eq_dec j (len tr)) as [->|Hne];
             [exact EF | apply Hu; lia].
        -- intros i Hi. cbn [runeBuf set_runePos set_runeBuf]. rewrite Hb, ?Hr, ?Hpos.
           destruct (Z.eqb_spec i (len tr)); [lia | reflexivity].
Qed.

Lemma ReadRune_traced_loop u :
  exists ol,
    ReadRune_loop (Z.to_nat utf8.MaxRune) (set_runePos u 0) []
      = (ol, snd (ReadRune_traced u)) /\
    loop_post ol (snd (ReadRune_traced u)) /\
    fst (ReadRune_traced u) =
      match ol with
      | Panic u' => Panic u'
      | Return u' (Some e) => Return u' (0, 0, Some e)
      | Return u' None =>
          let '(r, size) :=
            utf8.DecodeRune (runeBuf_view u' 0 (runePos u' + 1)) in
          Return u' (r, size, None)
      end.
Proof.
  unfold ReadRune_traced.
  destruct (ReadRune_loop _ _ _) as [ol tr] eqn:EL.
  assert (HP : loop_post ol tr).
  { apply (ReadRune_loop_post _ _ _ _ _) with (7 := EL).
    - reflexivity.
    - unfold utf8.UTFMax, len. simpl. lia.
    - rewrite Z2Nat.id by (unfold utf8.MaxRune; lia).
      change (len (@nil ReadCall)) with 0.
      unfold utf8.UTFMax, utf8.MaxRune. lia.
    - constructor.
    - constructor.
    - intros j Hj. unfold len in Hj. simpl in Hj. lia. }
  exists ol. destruct ol as [u' [e|] | u']; simpl; auto.
  pose proof HP as (Hlen & _ & _ & Hpos & _).
  replace (utf8.MaxRune <? runePos u' + 1) with false.
  2:{ symmetry. apply Z.ltb_ge. rewrite Hpos.
      unfold utf8.MaxRune, utf8.UTFMax in *. lia. }
  destruct (utf8.DecodeRune _). simpl. auto.
Qed.

(** C8.  [ReadRune] reads its input through calls of [Read] on a span of
    one byte, and makes at most [utf8.UTFMax] = 4 of them: the loop goes on
    while no prefix of the bytes gathered is a full rune, and stops at the
    first prefix that is one, which four bytes always are. *)
Theorem ReadRune_at_most_UTFMax_reads u :
  let tr := snd (ReadRune_traced u) in
  len tr <= utf8.UTFMax /\ single_byte tr /\
  match fst (ReadRune_traced u) with
  | Return u' (_, _, None) =>
      quiet tr /\ runePos u' = len tr /\
      utf8.FullRune (runeBuf_view u' 0 (len tr)) = true /\
      unfinished u' (len tr)
  | Return u' (_, _, Some e) =>
      exists tr0 c, tr = tr0 ++ [c] /\ quiet tr0 /\ call_err c = Some e
  | Panic u' => quiet tr
  end.
Proof.
  intros tr. subst tr.
  destruct (ReadRune_traced_loop u) as (ol & _ & HP & ->).
  destruct HP as (Hlen & Hs & HP).
  split; [exact Hlen | split; [exact Hs|]].
  destruct ol as [u' [e|] | u'].
  - destruct HP as (tr0 & c & H1 & H2 & H3 & _). eauto.
  - destruct (utf8.DecodeRune _). exact HP.
  - exact HP.
Qed.

(** ** LastBytes *)

(** X15.  On a reader whose pending span lies within the retained window,
    [LastBytes(n)] with [n >= 0] returns the last [min(n, window -
    pending)] bytes of the window with its trailing pending bytes cut off:
    never more than [n] bytes, never more than are retained before the
    pending boundary.  It leaves the reader as it was, so that calling it
    again gives the same result. *)
Theorem LastBytes_lookback u (n : Z) :
  0 <= n <= Int64.max_int ->
  0 <= pending u <= len (Bytes u) ->
  len (Bytes u) <= Int64.max_int ->
  let kept :=
    firstn (length (Bytes u) - Z.to_nat (pending u)) (Bytes u) in
  let k := Z.min n (len (Bytes u) - pending u) in
  LastBytes u n = Return u (lastn (Z.to_nat k) kept) /\
  len (lastn (Z.to_nat k) kept) = k /\
  k <= n /\ k <= len (Bytes u) - pending u /\
  LastBytes (state_of (LastBytes u n)) n = LastBytes u n.
Proof.
  intros Hn Hp Hl kept k.
  assert (Hret : LastBytes u n = Return u (lastn (Z.to_nat k) kept)).
  { unfold LastBytes. fold (pending u).
    set (b := Bytes u) in *. set (off := pending u) in *.
    unfold Int64.max_int in *.
    assert (E1 : Int64.sub (len b) off = len b - off).
    { apply wrap_small. unfold Int64.in_range, Int64.min_int, Int64.max_int.
      lia. }
    rewrite E1.
    assert (E2 : Int64.sub (len b - off) n = len b - off - n).
    { apply wrap_small. unfold Int64.in_range, Int64.min_int, Int64.max_int.
      lia. }
    rewrite E2.
    set (s := if len b - off - n >? 0 then len b - off - n else 0).
    assert (Hs : s = len b - off - k).
    { subst s k. destruct (Z.gtb_spec (len b - off - n) 0); lia. }
    replace ((s <? 0) || (len b - off <? s) || (len b <? len b - off))
      with false.
    2:{ symmetry. rewrite !orb_false_iff. repeat split; apply Z.ltb_ge; lia. }
    f_equal. unfold slice, lastn. subst kept.
    rewrite length_firstn, skipn_firstn_comm. unfold len in *.
    f_equal; [|f_equal]; lia. }
  split; [exact Hret|]. rewrite Hret. simpl.
  split; [| split; [lia | split; [lia | exact Hret]]].
  unfold len. rewrite length_lastn. subst kept.
  rewrite length_firstn. unfold len in *. lia.
Qed.

(** ** Read on a coherent reader *)

Lemma coherent_window u stream log :
  coherent u stream log ->
  len (circbuf.data (cb u)) <= Int64.max_int /\
  (length (circbuf.data (cb u)) <= length stream)%nat /\
  length log = (length stream - Z.to_nat (pending u))%nat.
Proof.
  intros (Hsz & Hd & _ & _ & _ & Hp & Hlog).
  assert (Hl : length (circbuf.data (cb u))
               = Nat.min (Z.to_nat (circbuf.size (cb u))) (length stream))
    by (rewrite Hd; apply length_lastn).
  unfold len in *. repeat split; try lia.
  rewrite Hlog, length_firstn. lia.
Qed.

Lemma cursor_eq_pending u stream log :
  coherent u stream log ->
  (cursor u =? bytesRead u) = (pending u =? 0).
Proof.
  intros (_ & _ & _ & Hb & Hc & _).
  unfold pending.
  destruct (Z.eqb_spec (cursor u) (bytesRead u)) as [E|E].
  - rewrite E, sub_self. reflexivity.
  - destruct (Z.eqb_spec (Int64.sub (bytesRead u) (cursor u)) 0) as [E'|E'];
      [|reflexivity].
    apply sub_eq_0 in E'; [congruence | | exact Hc].
    rewrite Hb. apply wrap_range.
Qed.

Lemma Read_empty u p : len p = 0 -> Read u p = Return u (p, 0, None).
Proof. intros H. unfold Read. now rewrite H. Qed.

Lemma Read_fresh u stream log p :
  coherent u stream log -> pending u = 0 -> len p <> 0 ->
  exists u',
    let chunk := fst (fst (rd_Read (rd u) (length p))) in
    Read u p = Return u' (chunk ++ skipn (length chunk) p, len chunk,
                          snd (fst (rd_Read (rd u) (length p)))) /\
    coherent u' (stream ++ chunk) (log ++ chunk) /\
    rd u' = snd (rd_Read (rd u) (length p)) /\
    pending u' = 0.
Proof.
  intros Hc Hp Hne. unfold Read.
  rewrite (cursor_eq_pending _ _ _ Hc), Hp.
  destruct (Z.eqb_spec (len p) 0) as [|_]; [contradiction|]. simpl.
  destruct (rd_Read (rd u) (length p)) as [[chunk err] r']. simpl.
  eexists. split; [reflexivity|].
  destruct Hc as (Hsz & Hd & Hw & Hb & Hcu & Hpe & Hlog).
  rewrite slice_prefix.
  assert (Hp' : Int64.sub (Int64.add (bytesRead u) (len chunk))
                          (Int64.add (cursor u) (len chunk)) = 0)
    by (rewrite add_sub_cancel; exact Hp).
  split; [|split; [reflexivity | exact Hp']].
  unfold coherent, pending. simpl. rewrite Hp'.
  split; [exact Hsz|]. split.
  { rewrite Hd. apply lastn_app_lastn. }
  split.
  { rewrite Hw. unfold Int64.add. rewrite wrap_wrap_add, len_app.
    reflexivity. }
  split.
  { rewrite Hb. unfold Int64.add. rewrite wrap_wrap_add, len_app.
    reflexivity. }
  split; [apply wrap_range|].
  split; [split; [lia | apply len_nonneg]|].
  rewrite Hlog, Hp. simpl. rewrite !Nat.sub_0_r, !firstn_all.
  reflexivity.
Qed.

Lemma Read_replay u stream log p :
  coherent u stream log -> 0 < pending u -> len p <> 0 ->
  let m := Nat.min (length p) (Z.to_nat (pending u)) in
  let got :=
    firstn m (skipn (length stream - Z.to_nat (pending u)) stream) in
  let u' := set_cursor u (Int64.add (cursor u) (Z.of_nat m)) in
  Read u p = Return u' (got ++ skipn m p, Z.of_nat m, None) /\
  length got = m /\
  pending u' = pending u - Z.of_nat m /\
  coherent u' stream (log ++ got).
Proof.
  intros Hc Hp Hne m got u'.
  destruct (coherent_window _ _ _ Hc) as (Hmax & Hle & Hll).
  pose proof Hc as (Hsz & Hd & Hw & Hb & Hcu & Hpe & Hlog).
  set (b := circbuf.data (cb u)) in *.
  unfold Int64.max_int in *.
  assert (Elo : Int64.sub (len b) (pending u) = len b - pending u).
  { apply wrap_small. unfold Int64.in_range, Int64.min_int, Int64.max_int.
    lia. }
  assert (Esrc : slice b (len b - pending u) (len b)
                 = skipn (length stream - Z.to_nat (pending u)) stream).
  { rewrite slice_to_end by lia.
    replace (Z.to_nat (len b - pending u))
      with (length b - Z.to_nat (pending u))%nat by (unfold len; lia).
    subst b. rewrite Hd. apply skipn_lastn.
    rewrite <- length_lastn, <- Hd. unfold len in Hpe. lia. }
  assert (Hsrc : length (skipn (length stream - Z.to_nat (pending u)) stream)
                 = Z.to_nat (pending u)).
  { rewrite length_skipn. unfold len in *. lia. }
  assert (Hgot : length got = m).
  { subst got. rewrite length_firstn, Hsrc. subst m. lia. }
  assert (Hpend : pending u' = pending u - Z.of_nat m).
  { subst u'. unfold pending. simpl. rewrite sub_add_r.
    fold (pending u). apply wrap_small.
    unfold Int64.in_range, Int64.min_int, Int64.max_int. subst m. lia. }
  split; [| split; [exact Hgot | split; [exact Hpend|]]].
  - unfold Read.
    rewrite (cursor_eq_pending _ _ _ Hc).
    destruct (Z.eqb_spec (len p) 0) as [|_]; [contradiction|].
    destruct (Z.eqb_spec (pending u) 0) as [|_]; [lia|].
    fold (pending u). unfold circbuf.Bytes. fold b. rewrite Elo.
    replace ((len b - pending u <? 0) || (len b <? len b - pending u))
      with false
      by (symmetry; apply orb_false_iff; split; apply Z.ltb_ge; lia).
    rewrite Esrc. unfold copy. rewrite Hsrc. reflexivity.
  - unfold coherent. rewrite Hpend.
    split; [exact Hsz|]. split; [exact Hd|]. split; [exact Hw|].
    split; [exact Hb|]. split; [apply wrap_range|].
    split; [subst m; simpl; fold b; lia|].
    rewrite Hlog. subst got.
    replace (length stream - Z.to_nat (pending u - Z.of_nat m))%nat
      with ((length stream - Z.to_nat (pending u)) + m)%nat
      by (unfold len in *; subst m; lia).
    symmetry. apply firstn_plus.
Qed.

(** A call of [Read] on a coherent reader returns, and leaves the reader
    coherent, its log extended by the bytes delivered. *)
Lemma Read_coherent u stream log p :
  coherent u stream log ->
  exists u' p' n err stream',
    Read u p = Return u' (p', n, err) /\
    coherent u' stream' (log ++ slice p' 0 n).
Proof.
  intros Hc.
  destruct (Z.eq_dec (len p) 0) as [E0|E0].
  { exists u, p, 0, None, stream. split; [now apply Read_empty|].
    unfold slice. simpl. rewrite app_nil_r. exact Hc. }
  pose proof Hc as (_ & _ & _ & _ & _ & Hpe & _).
  destruct (Z.eq_dec (pending u) 0) as [Ep|Ep].
  - destruct (Read_fresh _ _ _ p Hc Ep E0) as (u' & HR & Hc' & _).
    cbv zeta in HR, Hc'. eexists _, _, _, _, _. split; [exact HR|].
    rewrite slice_prefix. exact Hc'.
  - destruct (Read_replay _ _ _ p Hc ltac:(lia) E0) as (HR & Hg & _ & Hc').
    cbv zeta in HR, Hg, Hc'.
    set (m := Nat.min _ _) in *. set (got := firstn m _) in *.
    eexists _, _, _, _, _. split; [exact HR|].
    assert (E : slice (got ++ skipn m p) 0 (Z.of_nat m) = got).
    { rewrite <- Hg. apply slice_prefix. }
    rewrite E. exact Hc'.
Qed.

(** ** Unread and ReadRune on a coherent reader *)

Lemma Unread_coherent u stream log c u' :
  coherent u stream log ->
  0 <= c -> pending u + c <= Int64.max_int ->
  Unread u c = (u', None) ->
  u' = set_cursor u (Int64.sub (cursor u) c) /\
  pending u' = pending u + c /\
  (Z.to_nat c <= length log)%nat /\
  coherent u' stream (firstn (length log - Z.to_nat c) log).
Proof.
  intros Hc H0 Hmax.
  destruct (coherent_window _ _ _ Hc) as (Hwmax & Hle & Hll).
  pose proof Hc as (Hsz & Hd & Hw & Hb & Hcu & Hpe & Hlog).
  assert (Hspan : Int64.sub (bytesRead u) (Int64.sub (cursor u) c)
                  = pending u + c).
  { rewrite sub_sub_r. fold (pending u). apply wrap_small.
    unfold Int64.in_range, Int64.min_int, Int64.max_int in *. lia. }
  unfold Unread. rewrite Hspan.
  unfold circbuf.TotalWritten, circbuf.Size.
  destruct (Z.ltb_spec (circbuf.written (cb u)) (pending u + c)) as [|Hw'];
    [discriminate|].
  destruct (Z.ltb_spec (circbuf.size (cb u)) (pending u + c)) as [|Hs'];
    [discriminate|].
  intros [= <-].
  assert (Hp' : pending (set_cursor u (Int64.sub (cursor u) c))
                = pending u + c) by exact Hspan.
  assert (Hstream : pending u + c <= len stream).
  { rewrite Hw in Hw'. pose proof (wrap_le_nonneg (len stream) (len_nonneg _)).
    lia. }
  assert (Hdata : pending u + c <= len (circbuf.data (cb u))).
  { rewrite Hd. unfold len in *. rewrite length_lastn. lia. }
  split; [reflexivity | split; [exact Hp' | split]].
  { unfold len in *. lia. }
  unfold coherent. rewrite Hp'.
  split; [exact Hsz|]. split; [exact Hd|]. split; [exact Hw|].
  split; [exact Hb|]. split; [apply wrap_range|].
  split; [cbn [cb set_cursor]; lia|].
  rewrite Hll. rewrite Hlog at 1. rewrite firstn_firstn. f_equal.
  unfold len in *. lia.
Qed.

Lemma Unread_refused u c u' e : Unread u c = (u', Some e) -> u' = u.
Proof.
  unfold Unread. destruct (_ <? _); [now intros [= <-]|].
  destruct (_ <? _); [now intros [= <-] | discriminate].
Qed.

Lemma ReadRune_loop_coherent fuel : forall u tr stream log0 o tr',
  coherent u stream (log0 ++ concat (map call_bytes tr)) ->
  ReadRune_loop fuel u tr = (o, tr') ->
  exists stream',
    coherent (state_of o) stream' (log0 ++ concat (map call_bytes tr')).
Proof.
  induction fuel as [|fuel IH]; intros u tr stream log0 o tr' Hc; simpl;
    destruct (_ && _); try (intros [= <- <-]; now exists stream).
  destruct (_ || _); [intros [= <- <-]; now exists stream|].
  destruct (Read_coherent _ _ _
              (runeBuf_view u (runePos u) (runePos u + 1)) Hc)
    as (u1 & p' & n & err & stream1 & -> & Hc1).
  assert (Hc2 : coherent u1 stream1
            (log0 ++ concat (map call_bytes
               (tr ++ [mkReadCall
                         (len (runeBuf_view u (runePos u) (runePos u + 1)))
                         (slice p' 0 n) err])))).
  { rewrite map_app, concat_app. simpl. rewrite app_nil_r, app_assoc.
    exact Hc1. }
  destruct err as [e|].
  - intros [= <- <-]. exists stream1. exact Hc2.
  - intros HL. eapply IH; [|exact HL]. exact Hc2.
Qed.

Lemma ReadRune_traced_coherent u stream log :
  coherent u stream log ->
  exists stream',
    coherent (state_of (fst (ReadRune_traced u))) stream'
      (log ++ concat (map call_bytes (snd (ReadRune_traced u)))).
Proof.
  intros Hc.
  destruct (ReadRune_traced_loop u) as (ol & HL & _ & ->).
  apply (ReadRune_loop_coherent _ _ _ stream log) in HL.
  - destruct HL as [stream' H]. exists stream'.
    destruct ol as [u' [e|] | u']; [exact H | | exact H].
    simpl. destruct (utf8.DecodeRune _). exact H.
  - simpl. rewrite app_nil_r. exact Hc.
Qed.

(** Every reader that results from sound use is coherent. *)
Lemma consumed_coherent u log :
  consumed u log -> exists stream, coherent u stream log.
Proof.
  induction 1 as [size r u Hmax Hnew
                 | u log p u' p' n err _ [stream IH] HR
                 | u log c u' _ [stream IH] H0 Hmax HU
                 | u log c u' e _ [stream IH] HU
                 | u log u' res tr _ [stream IH] HR
                 | u log n u' bs _ [stream IH] HL].
  - exists []. unfold NewUnreader, circbuf.NewBuffer in Hnew.
    destruct (Z.leb_spec size 0); [discriminate|].
    injection Hnew as <-. unfold coherent, pending. simpl.
    unfold Int64.in_range, Int64.min_int, Int64.max_int, len in *.
    repeat split; try reflexivity; simpl; lia.
  - destruct (Read_coherent _ _ _ p IH) as (u1 & p1 & n1 & e1 & s1 & HR1 & Hc1).
    rewrite HR in HR1. injection HR1 as <- <- <- <-. now exists s1.
  - exists stream. now apply (Unread_coherent _ _ _ _ _ IH H0 Hmax HU).
  - apply Unread_refused in HU. subst u'. now exists stream.
  - destruct (ReadRune_traced_coherent _ _ _ IH) as [s1 H1].
    rewrite HR in H1. now exists s1.
  - unfold LastBytes in HL. destruct (_ || _); [discriminate|].
    injection HL as <- _. now exists stream.
Qed.

(** ** Rewind, then replay *)

(** X14.  In sound use, let [log] be the bytes delivered so far and not
    unread since.  After a successful [Unread(c)] with [c >= 1], a [Read] into a span of
    length [c] returns exactly [c] bytes, the last [c] bytes of [log] in
    their order, and no error; it puts the reader back into the state it
    had before the [Unread], so the source is not called and the fetch
    counter does not move. *)
Theorem Unread_then_Read_replays u log (c : Z) u1 p :
  consumed u log ->
  1 <= c -> pending u + c <= Int64.max_int ->
  Unread u c = (u1, None) ->
  len p = c ->
  c <= len log /\
  Read u1 p = Return u (lastn (Z.to_nat c) log, c, None) /\
  len (lastn (Z.to_nat c) log) = c /\
  rd u1 = rd u /\ BytesRead u1 = BytesRead u.
Proof.
  intros Hcons Hc Hmax HU Hp.
  destruct (consumed_coherent _ _ Hcons) as [stream Hco].
  assert (H0 : 0 <= c) by lia.
  destruct (Unread_coherent _ _ _ _ _ Hco H0 Hmax HU)
    as (Hu1 & Hp1 & Hcl & Hco1).
  destruct (coherent_window _ _ _ Hco) as (_ & _ & Hll).
  destruct (coherent_window _ _ _ Hco1) as (_ & Hle1 & _).
  pose proof Hco as (_ & _ & _ & _ & Hcur & Hpe & Hlog).
  pose proof Hco1 as (_ & _ & _ & _ & _ & Hpe1 & _).
  assert (Hpos : 0 < pending u1) by lia.
  assert (Hne : len p <> 0) by lia.
  destruct (Read_replay _ _ _ p Hco1 Hpos Hne) as (HR & Hg & _ & _).
  cbv zeta in HR, Hg. rewrite Hp1 in HR, Hg, Hpe1.
  assert (Hm : Nat.min (length p) (Z.to_nat (pending u + c)) = Z.to_nat c)
    by (unfold len in *; lia).
  rewrite Hm in HR, Hg.
  assert (Hlast : lastn (Z.to_nat c) log
                  = firstn (Z.to_nat c)
                      (skipn (length stream - Z.to_nat (pending u + c))
                         stream)).
  { unfold lastn. rewrite Hll. rewrite Hlog at 1.
    rewrite skipn_firstn_comm. unfold len in *.
    f_equal; [|f_equal]; lia. }
  assert (Hback : set_cursor u1 (Int64.add (cursor u1) (Z.of_nat (Z.to_nat c)))
                  = u).
  { rewrite Hu1. unfold set_cursor. simpl. unfold Int64.add, Int64.sub.
    rewrite wrap_wrap_add.
    replace (cursor u - c + Z.of_nat (Z.to_nat c)) with (cursor u) by lia.
    rewrite (wrap_small _ Hcur). destruct u; reflexivity. }
  split; [unfold len in *; lia|].
  split.
  - rewrite HR, Hback, <- Hlast.
    replace (skipn (Z.to_nat c) p) with (@nil Z)
      by (symmetry; apply skipn_all2; unfold len in *; lia).
    rewrite app_nil_r, Z2Nat.id by lia. reflexivity.
  - rewrite Hlast. unfold len. rewrite Hg, Hu1.
    repeat split; try reflexivity. lia.
Qed.

(** On a reader that results from sound use, no call of [Read] panics,
    and a replay reports no error. *)
Lemma Read_returns u log p :
  consumed u log ->
  exists u' p' n err,
    Read u p = Return u' (p', n, err) /\
    (cursor u <> bytesRead u -> err = None /\ rd u' = rd u).
Proof.
  intros Hcons. destruct (consumed_coherent _ _ Hcons) as [stream Hco].
  destruct (Z.eq_dec (len p) 0) as [E0|E0].
  { rewrite (Read_empty _ _ E0). eexists _, _, _, _. split; [reflexivity|].
    auto. }
  pose proof Hco as (_ & _ & _ & _ & _ & Hpe & _).
  pose proof (cursor_eq_pending _ _ _ Hco) as Heq.
  destruct (Z.eq_dec (pending u) 0) as [Ep|Ep].
  - destruct (Read_fresh _ _ _ p Hco Ep E0) as (u' & HR & _).
    cbv zeta in HR. rewrite HR. eexists _, _, _, _. split; [reflexivity|].
    intros Hne. rewrite Ep in Heq. simpl in Heq.
    apply Z.eqb_eq in Heq. contradiction.
  - assert (Hpos : 0 < pending u) by lia.
    destruct (Read_replay _ _ _ p Hco Hpos E0) as (HR & _).
    cbv zeta in HR. rewrite HR. eexists _, _, _, _. split; [reflexivity|].
    auto.
Qed.

(** ** Reading without unreading *)

Lemma Reads_in_step u ps :
  cursor u = bytesRead u ->
  exists u',
    Reads u ps = Some (u', fst (produced (rd u) (map (@length Z) ps))) /\
    cursor u' = bytesRead u' /\
    rd u' = snd (produced (rd u) (map (@length Z) ps)).
Proof.
  revert u. induction ps as [|p ps IH]; intros u Hu; simpl.
  { exists u. auto. }
  unfold Read.
  destruct (Z.eqb_spec (len p) 0) as [E0|E0].
  - destruct p as [|x p]; [|unfold len in E0; simpl in E0; lia].
    simpl. destruct (IH u Hu) as (u' & -> & H1 & H2).
    exists u'. auto.
  - destruct (length p) as [|k] eqn:Ek; [unfold len in E0; lia|].
    rewrite Hu, Z.eqb_refl.
    destruct (rd_Read (rd u) (Datatypes.S k)) as [[chunk err] r'].
    rewrite slice_prefix.
    match goal with
    | |- context [Reads ?v ps] =>
        destruct (IH v) as (u' & -> & H1 & H2); [reflexivity|]
    end.
    simpl in *. destruct (produced r' (map (@length Z) ps)) as [rest r''].
    exists u'. auto.
Qed.

(** C6.  Starting from a freshly constructed reader, a sequence of calls
    of [Read] with no [Unread] never panics; after each call (that is,
    after every prefix of the sequence) the cursor equals the fetch
    counter, and the bytes delivered so far are, in order, exactly the
    bytes the source produced for those calls. *)
Theorem Reads_transparent size r u0 ps (k : nat) :
  NewUnreader size r = inl u0 ->
  exists u,
    Reads u0 (firstn k ps)
      = Some (u, fst (produced r (map (@length Z) (firstn k ps)))) /\
    Cursor u = BytesRead u /\
    rd u = snd (produced r (map (@length Z) (firstn k ps))).
Proof.
  intros Hnew. unfold NewUnreader in Hnew.
  destruct (circbuf.NewBuffer size); [|discriminate].
  injection Hnew as <-.
  apply (Reads_in_step (mkUnreader b r 0 0 (fun _ => 0) 0)).
  reflexivity.
Qed.
End Properties.

(* ------------------------------------------------------------------ *)
(** * The calls of Read that ReadRune makes *)

Section RuneCalls.

Context {S : Type} {RS : Reader S}.
Implicit Types u w : unreader S.

Import Int64Facts.

(** The next state of the loop after a call of [Read] that returned. *)
Lemma gathering_runePos u tr w :
  gathering u tr w -> runePos w = runePos u + len tr.
Proof.
  induction 1 as [u | u u' p' n tr w Hfull Hpos HR _ IH].
  - change (len (@nil ReadCall)) with 0. lia.
  - destruct (Read_frame _ _ _ _ _ _ HR) as (_ & Hr & _).
    rewrite IH. cbn [runePos set_runePos set_runeBuf]. rewrite Hr.
    replace (len (mkReadCall 1 (slice p' 0 n) None :: tr)) with (len tr + 1)
      by (unfold len; cbn [length]; lia).
    unfold Int64.add. rewrite wrap_small; [lia|].
    unfold Int64.in_range, Int64.min_int, Int64.max_int, utf8.MaxRune in *.
    lia.
Qed.

Lemma gathering_next u u' p' n tr w :
  utf8.FullRune (runeBuf_view u 0 (runePos u)) = false ->
  0 <= runePos u < utf8.MaxRune ->
  Read u (runeBuf_view u (runePos u) (runePos u + 1))
    = Return u' (p', n, None) ->
  gathering (gather_next u) tr w ->
  gathering u (mkReadCall 1 (slice p' 0 n) None :: tr) w.
Proof.
  intros Hfull Hpos HR Hg. unfold gather_next in Hg. rewrite HR in Hg.
  now apply (gathering_step u u' p' n tr w).
Qed.

(** Along the calls gathered, the loop of [ReadRune] goes from [u] to
    [w]. *)
Lemma ReadRune_loop_unroll u tr w :
  gathering u tr w ->
  forall fuel tr0, (length tr <= fuel)%nat ->
    ReadRune_loop fuel u tr0
    = ReadRune_loop (fuel - length tr) w (tr0 ++ tr).
Proof.
  induction 1 as [u | u u' p' n tr w Hfull Hpos HR _ IH]; intros fuel tr0 Hf.
  - rewrite Nat.sub_0_r, app_nil_r. reflexivity.
  - destruct fuel as [|fuel]; [simpl in Hf; lia|].
    cbn [ReadRune_loop]. rewrite Hfull.
    replace (runePos u <? utf8.MaxRune) with true
      by (symmetry; apply Z.ltb_lt; lia).
    replace ((runePos u <? 0) || (utf8.MaxRune <? runePos u + 1)) with false
      by (symmetry; apply orb_false_iff; split; apply Z.ltb_ge; lia).
    cbn [negb andb]. rewrite HR.
    rewrite len_runeBuf_view by lia.
    replace (runePos u + 1 - runePos u) with 1 by lia.
    rewrite IH by (simpl in Hf; lia).
    cbn [length Nat.sub]. rewrite <- app_assoc. reflexivity.
Qed.

(** Conversely the loop makes no other calls: its result is reached by
    calls gathered, followed by nothing, by a call that returned an error,
    or by a panic. *)
Lemma ReadRune_loop_gathering fuel : forall u tr0 o tr',
  ReadRune_loop fuel u tr0 = (o, tr') ->
  exists ext w,
    gathering u ext w /\
    ((o = Return w None /\ tr' = tr0 ++ ext) \/
     (exists w' p' n e,
         utf8.FullRune (runeBuf_view w 0 (runePos w)) = false /\
         Read w (runeBuf_view w (runePos w) (runePos w + 1))
           = Return w' (p', n, Some e) /\
         o = Return (set_runeBuf w' (runePos w') (nth 0 p' 0)) (Some e) /\
         tr' = tr0 ++ ext ++ [mkReadCall 1 (slice p' 0 n) (Some e)]) \/
     (exists x, o = Panic x /\ tr' = tr0 ++ ext /\
                (x = w \/
                 Read w (runeBuf_view w (runePos w) (runePos w + 1))
                   = Panic x))).
Proof.
  induction fuel as [|fuel IH]; intros u tr0 o tr'; cbn [ReadRune_loop].
  - destruct (_ && _); intros [= <- <-]; exists [], u;
      (split; [constructor | left; now rewrite app_nil_r]).
  - destruct (utf8.FullRune (runeBuf_view u 0 (runePos u))) eqn:Hfull;
      cbn [negb andb].
    { intros [= <- <-]. exists [], u.
      split; [constructor | left; now rewrite app_nil_r]. }
    destruct (Z.ltb_spec (runePos u) utf8.MaxRune) as [Hlt|Hge].
    2:{ intros [= <- <-]. exists [], u.
        split; [constructor | left; now rewrite app_nil_r]. }
    destruct (Z.ltb_spec (runePos u) 0) as [Hneg|Hnn]; cbn [orb].
    { intros [= <- <-]. exists [], u. split; [constructor|].
      right. right. exists u. rewrite app_nil_r. auto. }
    replace (utf8.MaxRune <? runePos u + 1) with false
      by (symmetry; apply Z.ltb_ge; lia).
    rewrite len_runeBuf_view by lia.
    replace (runePos u + 1 - runePos u) with 1 by lia.
    destruct (Read u (runeBuf_view u (runePos u) (runePos u + 1)))
      as [u' [[p' n] [e|]] | x] eqn:HR.
    + intros [= <- <-]. exists [], u. split; [constructor|].
      right. left. exists u', p', n, e. auto.
    + intros HL. apply IH in HL. destruct HL as (ext & w & Hg & Hcase).
      exists (mkReadCall 1 (slice p' 0 n) None :: ext), w. split.
      { apply (gathering_step u u' p' n ext w); auto with zarith. }
      destruct Hcase as [(-> & ->) | [(w' & q' & m & e & Hf & Hr & -> & ->)
                                     | (x & -> & -> & Hx)]].
      * left. now rewrite <- app_assoc.
      * right. left. exists w', q', m, e.
        repeat split; auto. now rewrite <- !app_assoc.
      * right. right. exists x. rewrite <- app_assoc. auto.
    + intros [= <- <-]. exists [], u. split; [constructor|].
      right. right. exists x. rewrite app_nil_r. auto.
Qed.

(** An error returned by [Read] is the error of the source: the call was
    a fresh fetch, and replay never fails. *)
Lemma Read_error_from_source w p w' p' n e :
  Read w p = Return w' (p', n, Some e) ->
  cursor w = bytesRead w /\
  snd (fst (rd_Read (rd w) (length p))) = Some e.
Proof.
  unfold Read. destruct (len p =? 0); [discriminate|].
  destruct (Z.eqb_spec (cursor w) (bytesRead w)) as [E|E].
  - destruct (rd_Read (rd w) (length p)) as [[chunk err] r'].
    intros [= _ _ _ ->]. auto.
  - destruct (_ || _); [discriminate|]. destruct (copy p _). discriminate.
Qed.

Lemma length_runeBuf_view1 w (j : Z) :
  length (runeBuf_view w j (j + 1)) = 1%nat.
Proof.
  unfold runeBuf_view. rewrite length_map, length_seq. lia.
Qed.

Lemma ReadRune_error u tr w w' p' n e :
  gathering (set_runePos u 0) tr w ->
  utf8.FullRune (runeBuf_view w 0 (runePos w)) = false ->
  Read w (runeBuf_view w (runePos w) (runePos w + 1))
    = Return w' (p', n, Some e) ->
  ReadRune_traced u
  = (Return (set_runeBuf w' (runePos w') (nth 0 p' 0)) (0, 0, Some e),
     tr ++ [mkReadCall 1 (slice p' 0 n) (Some e)]).
Proof.
  intros Hg Hfull HR.
  pose proof (gathering_runePos _ _ _ Hg) as Hpos.
  cbn [runePos set_runePos] in Hpos. rewrite Z.add_0_l in Hpos.
  pose proof (len_nonneg tr) as H0.
  assert (Hlt : len tr < utf8.UTFMax).
  { destruct (Z.lt_ge_cases (len tr) utf8.UTFMax) as [H|H]; [exact H|].
    rewrite FullRune_UTFMax in Hfull; [discriminate|].
    rewrite len_runeBuf_view; lia. }
  unfold utf8.UTFMax in Hlt.
  assert (Hfuel : (length tr < Z.to_nat utf8.MaxRune)%nat)
    by (unfold len, utf8.MaxRune in *; lia).
  unfold ReadRune_traced.
  rewrite (ReadRune_loop_unroll _ _ _ Hg) by lia. cbn [app].
  destruct (Z.to_nat utf8.MaxRune - length tr)%nat as [|fuel] eqn:Ef; [lia|].
  cbn [ReadRune_loop]. rewrite Hfull, Hpos.
  replace (len tr <? utf8.MaxRune) with true
    by (symmetry; apply Z.ltb_lt; unfold utf8.MaxRune; lia).
  replace ((len tr <? 0) || (utf8.MaxRune <? len tr + 1)) with false
    by (symmetry; apply orb_false_iff; split; apply Z.ltb_ge;
        unfold utf8.MaxRune; lia).
  cbn [negb andb]. rewrite <- Hpos, HR.
  rewrite len_runeBuf_view by lia.
  replace (runePos w + 1 - runePos w) with 1 by lia. reflexivity.
Qed.

(** C9.  Whenever the loop of [ReadRune] comes to a call of [Read] that
    returns an error, end of stream included, [ReadRune] stops with that
    call and returns [(0, 0, err)] with the error of the call, which is
    the error the source reported.  Conversely every error [ReadRune]
    returns is the error of such a call. *)
Theorem ReadRune_propagates_error u :
  (forall tr w w' p' n e,
      gathering (set_runePos u 0) tr w ->
      utf8.FullRune (runeBuf_view w 0 (runePos w)) = false ->
      Read w (runeBuf_view w (runePos w) (runePos w + 1))
        = Return w' (p', n, Some e) ->
      ReadRune_traced u
      = (Return (set_runeBuf w' (runePos w') (nth 0 p' 0)) (0, 0, Some e),
         tr ++ [mkReadCall 1 (slice p' 0 n) (Some e)]) /\
      cursor w = bytesRead w /\
      snd (fst (rd_Read (rd w) 1%nat)) = Some e) /\
  (forall u' r size e,
      ReadRune u = Return u' (r, size, Some e) ->
      r = 0 /\ size = 0 /\
      exists tr w w' p' n,
        gathering (set_runePos u 0) tr w /\
        Read w (runeBuf_view w (runePos w) (runePos w + 1))
          = Return w' (p', n, Some e) /\
        snd (fst (rd_Read (rd w) 1%nat)) = Some e /\
        u' = set_runeBuf w' (runePos w') (nth 0 p' 0)).
Proof.
  split.
  - intros tr w w' p' n e Hg Hfull HR.
    split; [exact (ReadRune_error u tr w w' p' n e Hg Hfull HR)|].
    destruct (Read_error_from_source _ _ _ _ _ _ HR) as (Hc & Hs).
    rewrite (length_runeBuf_view1 w) in Hs. auto.
  - intros u' r size e. unfold ReadRune, ReadRune_traced.
    destruct (ReadRune_loop _ _ _) as [o tr'] eqn:HL.
    apply ReadRune_loop_gathering in HL.
    destruct HL as (ext & w & Hg & Hcase).
    destruct Hcase as [(-> & _) | [(w' & p' & n & e' & Hf & HR & -> & _)
                                  | (x & -> & _)]]; cbn [fst].
    + destruct (_ <? _); [discriminate|].
      destruct (utf8.DecodeRune _). discriminate.
    + intros [= <- <- <- <-]. split; [reflexivity | split; [reflexivity|]].
      exists ext, w, w', p', n. split; [exact Hg | split; [exact HR|]].
      destruct (Read_error_from_source _ _ _ _ _ _ HR) as (_ & Hs).
      rewrite (length_runeBuf_view1 w) in Hs. auto.
    + discriminate.
Qed.


End RuneCalls.

(* ------------------------------------------------------------------ *)
(** * Concrete runs *)

Lemma hello16_new : NewUnreader 16 helloWorld = inl hello16.
Proof. reflexivity. Qed.

Lemma hello16_reachable cs : reachable (run hello16 cs).
Proof. exists 16, helloWorld, hello16, cs. split; reflexivity. Qed.

(** C4.  [Unread] accepts a negative count: on a fresh reader [Unread(-1)]
    returns no error and moves the cursor to 1 while nothing has been
    fetched, so the state is reachable and has [cursor > bytesRead]; the
    next [Read] then panics on its slice bounds. *)
Theorem Unread_negative_breaks_cursor_le_fetched :
  NewUnreader 16 helloWorld = inl hello16 /\
  Unread hello16 (-1) = (run hello16 [CallUnread (-1)], None) /\
  reachable (run hello16 [CallUnread (-1)]) /\
  Cursor (run hello16 [CallUnread (-1)]) = 1 /\
  BytesRead (run hello16 [CallUnread (-1)]) = 0 /\
  (Cursor (run hello16 [CallUnread (-1)])
     <=? BytesRead (run hello16 [CallUnread (-1)])) = false /\
  Read (run hello16 [CallUnread (-1)]) [0]
    = Panic (run hello16 [CallUnread (-1)]).
Proof.
  repeat split; try reflexivity. apply hello16_reachable.
Qed.

(** C5.  The range check of [Unread] is computed in wrapping [int64]
    arithmetic.  On a fresh reader [Unread(math.MinInt64)] returns no error
    and leaves [cursor < bytesRead]; after "hello" has been read and one
    byte unread, so does [Unread(math.MaxInt64)].  In both reachable states
    the replay branch of [Read] computes a negative start index and
    panics. *)
Theorem Read_replay_panics_after_wrapping_Unread :
  (Unread hello16 Int64.min_int
     = (run hello16 [CallUnread Int64.min_int], None) /\
   reachable (run hello16 [CallUnread Int64.min_int]) /\
   (Cursor (run hello16 [CallUnread Int64.min_int])
      <? BytesRead (run hello16 [CallUnread Int64.min_int])) = true /\
   Int64.sub (len (Bytes (run hello16 [CallUnread Int64.min_int])))
             (pending (run hello16 [CallUnread Int64.min_int]))
     = Int64.min_int /\
   Read (run hello16 [CallUnread Int64.min_int]) [0]
     = Panic (run hello16 [CallUnread Int64.min_int])) /\
  (Unread (run hello16_read5 [CallUnread 1]) Int64.max_int
     = (run hello16_read5 [CallUnread 1; CallUnread Int64.max_int], None) /\
   reachable (run hello16_read5 [CallUnread 1; CallUnread Int64.max_int]) /\
   (Cursor (run hello16_read5 [CallUnread 1; CallUnread Int64.max_int])
      <? BytesRead (run hello16_read5 [CallUnread 1; CallUnread Int64.max_int]))
     = true /\
   Read (run hello16_read5 [CallUnread 1; CallUnread Int64.max_int]) [0]
     = Panic (run hello16_read5 [CallUnread 1; CallUnread Int64.max_int])).
Proof.
  repeat split; try reflexivity.
  - apply hello16_reachable.
  - apply (hello16_reachable
             [CallRead [0; 0; 0; 0; 0]; CallUnread 1; CallUnread Int64.max_int]).
Qed.

(** C1.  On the input [C2 41 42] [ReadRune] returns the error rune with
    [size = 1] and no error, but has made two calls of [Read] and moved the
    cursor from 0 to 2: it consumed one byte more than the size it reports.
    [Unread(1)] then leaves the cursor at 1, not at its value before the
    call; without an [Unread] the next [ReadRune] returns "B", so the
    byte [41] has been consumed though the size returned was 1. *)
Theorem ReadRune_size_differs_from_bytes_consumed :
  NewUnreader 16 [0xC2; 0x41; 0x42] = inl stray16 /\
  Cursor stray16 = 0 /\
  ReadRune stray16
    = Return (state_of (ReadRune stray16)) (utf8.RuneError, 1, None) /\
  map call_bytes (snd (ReadRune_traced stray16)) = [[0xC2]; [0x41]] /\
  Cursor (state_of (ReadRune stray16)) = 2 /\
  Unread (state_of (ReadRune stray16)) 1
    = (set_cursor (state_of (ReadRune stray16)) 1, None) /\
  ReadRune (state_of (ReadRune stray16))
    = Return (state_of (ReadRune (state_of (ReadRune stray16))))
             (0x42, 1, None).
Proof.
  repeat split; vm_compute; reflexivity.
Qed.

Lemma hello16_read5_consumed : consumed hello16_read5 [104; 101; 108; 108; 111].
Proof.
  apply (consumed_Read hello16 [] [0; 0; 0; 0; 0] hello16_read5
           [104; 101; 108; 108; 111] 5 None).
  - apply (consumed_New 16 helloWorld); [vm_compute; discriminate | reflexivity].
  - reflexivity.
Qed.

(** The scenario of the specification: "hello" is read, [Unread(5)]
    succeeds, and the next [Read] of five bytes delivers "hello" again and
    leaves the reader, its source included, as it was before the rewind. *)
Lemma Unread_then_Read_replays_witness :
  5 <= len [104; 101; 108; 108; 111] /\
  Read (fst (Unread hello16_read5 5)) [0; 0; 0; 0; 0]
    = Return hello16_read5 ([104; 101; 108; 108; 111], 5, None) /\
  len (lastn (Z.to_nat 5) [104; 101; 108; 108; 111]) = 5 /\
  rd (fst (Unread hello16_read5 5)) = rd hello16_read5 /\
  BytesRead (fst (Unread hello16_read5 5)) = BytesRead hello16_read5.
Proof.
  apply (Unread_then_Read_replays hello16_read5 [104; 101; 108; 108; 111] 5
           (fst (Unread hello16_read5 5)) [0; 0; 0; 0; 0]).
  - exact hello16_read5_consumed.
  - lia.
  - vm_compute. discriminate.
  - reflexivity.
  - reflexivity.
Defined.

(** Two reads, of five and of six bytes, deliver "hello world". *)
Lemma Reads_transparent_witness :
  exists u,
    Reads hello16 (firstn 2 [[0; 0; 0; 0; 0]; [0; 0; 0; 0; 0; 0]])
      = Some (u, fst (produced helloWorld
                        (map (@length Z)
                           (firstn 2 [[0; 0; 0; 0; 0]; [0; 0; 0; 0; 0; 0]]))))
    /\ Cursor u = BytesRead u
    /\ rd u = snd (produced helloWorld
                     (map (@length Z)
                        (firstn 2 [[0; 0; 0; 0; 0]; [0; 0; 0; 0; 0; 0]]))).
Proof.
  apply (Reads_transparent 16 helloWorld hello16
           [[0; 0; 0; 0; 0]; [0; 0; 0; 0; 0; 0]] 2).
  reflexivity.
Defined.

(** After "hello" is read and two bytes are unread, the last two bytes
    before the cursor are "el". *)
Lemma LastBytes_lookback_witness :
  LastBytes (run hello16_read5 [CallUnread 2]) 2
    = Return (run hello16_read5 [CallUnread 2]) [101; 108] /\
  len [101; 108] = 2 /\
  2 <= 2 /\ 2 <= 3 /\
  LastBytes (state_of (LastBytes (run hello16_read5 [CallUnread 2]) 2)) 2
    = LastBytes (run hello16_read5 [CallUnread 2]) 2.
Proof.
  apply (LastBytes_lookback (run hello16_read5 [CallUnread 2]) 2).
  - vm_compute. split; discriminate.
  - vm_compute. split; discriminate.
  - vm_compute. discriminate.
Defined.

(** ** Further runs of ReadRune *)

(** A four-byte encoding takes four calls of [Read], one byte each. *)
Example ReadRune_four_bytes :
  ReadRune_traced grin16
    = (Return (state_of (ReadRune grin16)) (0x1F600, 4, None),
       [mkReadCall 1 [0xF0] None; mkReadCall 1 [0x9F] None;
        mkReadCall 1 [0x98] None; mkReadCall 1 [0x80] None]) /\
  Cursor (state_of (ReadRune grin16)) = 4.
Proof. split; vm_compute; reflexivity. Qed.

(** At the end of the stream the first call of [Read] reports [EOF], and so
    does [ReadRune]. *)
Example ReadRune_at_end_of_stream :
  ReadRune_traced empty16
    = (Return (state_of (ReadRune empty16)) (0, 0, Some EOF),
       [mkReadCall 1 [] (Some EOF)]).
Proof. vm_compute. reflexivity. Qed.

(** A call of [Read] that delivers no byte and no error still counts as a
    byte gathered: over the idle source [ReadRune] decodes the zero bytes of
    its scratch area and returns size 1 without having moved the cursor. *)
Example ReadRune_idle_source :
  ReadRune_traced idle16
    = (Return (state_of (ReadRune idle16)) (0, 1, None),
       [mkReadCall 1 [] None]) /\
  Cursor (state_of (ReadRune idle16)) = 0.
Proof. split; vm_compute; reflexivity. Qed.

(* ------------------------------------------------------------------ *)
(** * Facts about the UTF-8 helpers *)

Section Utf8Facts.

Import utf8.

(** The nine values a [first] entry takes. *)
Lemma first_cases b :
  first b = as_ \/ first b = xx \/ first b = s1 \/ first b = s2 \/
  first b = s3 \/ first b = s4 \/ first b = s5 \/ first b = s6 \/
  first b = s7.
Proof.
  unfold first.
  repeat match goal with
         | |- context [if ?c then _ else _] => destruct c
         end; tauto.
Qed.

(** Once the [first] entry is known, so are the width it encodes, its
    accept range and its class. *)
Ltac entry c :=
  let v1 := eval vm_compute in (Z.land c 7) in
  let v2 := eval vm_compute in (acceptRanges (Z.shiftr c 4)) in
  let v3 := eval vm_compute in (c >=? as_) in
  let v4 := eval vm_compute in (c =? xx) in
  change (Z.land c 7) with v1;
  change (acceptRanges (Z.shiftr c 4)) with v2;
  change (c >=? as_) with v3;
  change (c =? xx) with v4.

Ltac first_byte a :=
  destruct (first_cases a) as [E|[E|[E|[E|[E|[E|[E|[E|E]]]]]]]];
  rewrite E; clear E;
  [ entry as_ | entry xx | entry s1 | entry s2 | entry s3 | entry s4
  | entry s5 | entry s6 | entry s7 ].

Ltac compare_step :=
  match goal with
  | |- context [?a <? ?b] => destruct (Z.ltb_spec a b)
  | |- context [?a <=? ?b] => destruct (Z.leb_spec a b)
  | |- context [?a =? ?b] => destruct (Z.eqb_spec a b)
  | |- context [?a >? ?b] => destruct (Z.gtb_spec a b)
  | |- context [?a >=? ?b] => destruct (Z.geb_spec a b)
  end.

Ltac decide_rune :=
  cbn [fst snd andb orb negb];
  try reflexivity; try discriminate; try (exfalso; unfold locb, hicb in *; lia);
  try (compare_step; decide_rune).

Lemma len_cons {A} (x : A) l : len (x :: l) = len l + 1.
Proof. unfold len. cbn [length]. lia. Qed.

(** Bytes after a full rune do not change what is decoded: the rune and
    its width depend on the full prefix alone. *)
Lemma DecodeRune_app p q :
  FullRune p = true -> DecodeRune (p ++ q) = DecodeRune p.
Proof.
  pose proof (len_nonneg q) as Hq.
  destruct p as [|a [|b [|c [|d p]]]];
    unfold FullRune, DecodeRune, at_; cbv zeta; cbn [nth app];
    rewrite ?len_cons; [discriminate | | | |].
  - change (len (@nil Z)) with 0. generalize dependent (len q). intros n Hn.
    first_byte a; decide_rune.
  - change (len (@nil Z)) with 0. generalize dependent (len q). intros n Hn.
    first_byte a; decide_rune.
  - change (len (@nil Z)) with 0. generalize dependent (len q). intros n Hn.
    first_byte a; decide_rune.
  - rewrite len_app. pose proof (len_nonneg p) as Hp.
    generalize dependent (len q). generalize dependent (len p).
    intros m Hm n Hn.
    first_byte a; decide_rune.
Qed.

Ltac settle_rune :=
  cbn [fst snd andb orb negb];
  try (exfalso; unfold locb, hicb in *; lia);
  first
    [ compare_step; settle_rune
    | intros; try discriminate; cbn [fst snd];
      first [left; reflexivity | right; reflexivity] ].

(** When the bytes [p] are a full rune and no shorter prefix is, decoding
    them gives a rune of exactly their width, unless it gives the error
    rune of width 1. *)
Lemma DecodeRune_full_width p :
  FullRune p = true ->
  (forall j, (j < length p)%nat -> FullRune (firstn j p) = false) ->
  snd (DecodeRune p) = len p \/ DecodeRune p = (RuneError, 1).
Proof.
  intros Hfull Hshort.
  destruct p as [|a [|b [|c [|d [|e p]]]]].
  - discriminate.
  - clear Hshort. revert Hfull.
    unfold FullRune, DecodeRune, at_; cbv zeta; cbn [nth];
      rewrite ?len_cons; change (len (@nil Z)) with 0.
    first_byte a; settle_rune.
  - pose proof (Hshort 1%nat ltac:(simpl; lia)) as H1. clear Hshort.
    cbn [firstn] in H1. revert H1 Hfull.
    unfold FullRune, DecodeRune, at_; cbv zeta; cbn [nth];
      rewrite ?len_cons; change (len (@nil Z)) with 0.
    first_byte a; settle_rune.
  - pose proof (Hshort 1%nat ltac:(simpl; lia)) as H1.
    pose proof (Hshort 2%nat ltac:(simpl; lia)) as H2. clear Hshort.
    cbn [firstn] in H1, H2. revert H1 H2 Hfull.
    unfold FullRune, DecodeRune, at_; cbv zeta; cbn [nth];
      rewrite ?len_cons; change (len (@nil Z)) with 0.
    first_byte a; settle_rune.
  - pose proof (Hshort 1%nat ltac:(simpl; lia)) as H1.
    pose proof (Hshort 2%nat ltac:(simpl; lia)) as H2.
    pose proof (Hshort 3%nat ltac:(simpl; lia)) as H3. clear Hshort.
    cbn [firstn] in H1, H2, H3. revert H1 H2 H3 Hfull.
    unfold FullRune, DecodeRune, at_; cbv zeta; cbn [nth];
      rewrite ?len_cons; change (len (@nil Z)) with 0.
    first_byte a; settle_rune.
  - pose proof (Hshort 4%nat ltac:(simpl; lia)) as H4.
    rewrite FullRune_UTFMax in H4; [discriminate|].
    unfold UTFMax, len. cbn [firstn length]. lia.
Qed.

End Utf8Facts.

(* ------------------------------------------------------------------ *)
(** * Further properties of the reader *)

Section MoreProperties.

Context {S : Type} {RS : Reader S}.
Implicit Types u : unreader S.

Import Int64Facts.

(** ** Read as an io.Reader *)

(** X1.  In every state: when [Read] returns, [0 <= n <= len(p)]; an
    empty span changes nothing and gives [(0, nil)]; a non-empty span
    advances the cursor by [n], and when the cursor differs from the fetch
    counter it reports no error and touches neither the source, nor the
    buffer, nor the fetch counter.  When [Read] panics it is in the replay
    branch, on a non-empty span, and has changed nothing. *)
Theorem Read_io_contract u p :
  match Read u p with
  | Return u' (p', n, err) =>
      0 <= n <= len p /\
      (len p = 0 -> u' = u /\ n = 0 /\ err = None) /\
      (len p <> 0 ->
         cursor u' = Int64.add (cursor u) n /\
         (cursor u <> bytesRead u ->
            err = None /\ rd u' = rd u /\ cb u' = cb u /\
            bytesRead u' = bytesRead u))
  | Panic u' => u' = u /\ cursor u <> bytesRead u /\ len p <> 0
  end.
Proof.
  unfold Read.
  destruct (Z.eqb_spec (len p) 0) as [E0|E0].
  { rewrite E0. repeat split; try reflexivity; try lia. }
  destruct (Z.eqb_spec (cursor u) (bytesRead u)) as [Ec|Ec].
  - pose proof (rd_Read_len (rd u) (length p)) as Hle.
    destruct (rd_Read (rd u) (length p)) as [[chunk e] r']. simpl in Hle.
    cbn [cursor]. unfold len in *.
    split; [lia|]. split; [lia|]. intros _. split; [reflexivity|].
    intros H. contradiction.
  - destruct (_ || _); [auto|].
    unfold copy. set (src := slice _ _ _). set (m := Nat.min _ _).
    cbn [cursor rd cb bytesRead set_cursor]. unfold len in *.
    split; [subst m; lia|]. split; [lia|]. intros _.
    repeat split; reflexivity.
Qed.

(** ** Sound use keeps the data-model invariant *)

(** X2.  On every reader that results from sound use (no negative or
    overflowing count passed to [Unread]) the pending span is at least 0
    and at most the length of the retained window, which is at most the
    capacity; the cursor equals the fetch counter exactly when nothing is
    pending, and both stay [int64] values. *)
Theorem consumed_invariant u log :
  consumed u log ->
  0 <= pending u <= len (Bytes u) /\
  len (Bytes u) <= circbuf.Size (cb u) /\
  (Cursor u = BytesRead u <-> pending u = 0) /\
  Int64.in_range (Cursor u) /\ Int64.in_range (BytesRead u).
Proof.
  intros Hcons. destruct (consumed_coherent _ _ Hcons) as [stream Hco].
  pose proof (cursor_eq_pending _ _ _ Hco) as Heq.
  destruct Hco as (Hsz & Hd & _ & Hb & Hc & Hp & _).
  unfold Bytes, circbuf.Bytes, circbuf.Size, Cursor, BytesRead.
  split; [exact Hp|]. split.
  { rewrite Hd. unfold len. rewrite length_lastn. lia. }
  split.
  { rewrite <- Z.eqb_eq, Heq. apply Z.eqb_eq. }
  split; [exact Hc|]. rewrite Hb. apply wrap_range.
Qed.

(** X3.  In sound use the retained window is the tail of what the caller
    has been given followed by the bytes still pending: [Bytes()] holds
    the last [Size()] bytes of the log extended by [pending] bytes. *)
Theorem Bytes_retains_tail u log :
  consumed u log ->
  exists ahead,
    len ahead = pending u /\
    Bytes u = lastn (Z.to_nat (circbuf.Size (cb u))) (log ++ ahead).
Proof.
  intros Hcons. destruct (consumed_coherent _ _ Hcons) as [stream Hco].
  destruct (coherent_window _ _ _ Hco) as (_ & Hle & _).
  destruct Hco as (_ & Hd & _ & _ & _ & Hp & Hlog).
  exists (skipn (length stream - Z.to_nat (pending u)) stream). split.
  - unfold len in *. rewrite length_skipn. lia.
  - rewrite Hlog, firstn_skipn. exact Hd.
Qed.

(** ** The replay branch in sound use *)

(** X4.  In sound use a [Read] of a non-empty span while bytes are pending
    never panics and never fails: it delivers [min(len(p), pending)] bytes
    from the buffer, even when the span is longer, and touches neither the
    source, nor the buffer, nor the fetch counter. *)
Theorem Read_replay_short u log p :
  consumed u log ->
  Cursor u <> BytesRead u -> len p <> 0 ->
  exists u' p',
    Read u p = Return u' (p', Z.min (len p) (pending u), None) /\
    0 < pending u /\
    pending u' = pending u - Z.min (len p) (pending u) /\
    rd u' = rd u /\ cb u' = cb u /\ BytesRead u' = BytesRead u.
Proof.
  intros Hcons Hne Hp. destruct (consumed_coherent _ _ Hcons) as [stream Hco].
  pose proof (cursor_eq_pending _ _ _ Hco) as Heq.
  pose proof Hco as (_ & _ & _ & _ & _ & Hpe & _).
  assert (Hpos : 0 < pending u).
  { destruct (Z.eq_dec (pending u) 0) as [E|E]; [|lia].
    rewrite E in Heq. apply Z.eqb_eq in Heq. contradiction. }
  destruct (Read_replay _ _ _ p Hco Hpos Hp) as (HR & _ & Hpend & _).
  cbv zeta in HR, Hpend.
  replace (Z.of_nat (Nat.min (length p) (Z.to_nat (pending u))))
    with (Z.min (len p) (pending u)) in HR, Hpend by (unfold len; lia).
  eexists _, _. split; [exact HR|].
  split; [exact Hpos|]. split; [exact Hpend|]. repeat split.
Qed.

(** ** Unread *)

(** X5.  Rewinds add up: while the pending span is not negative and the
    sums do not overflow, [Unread(a + b)] succeeds exactly when [Unread(a)]
    followed by [Unread(b)] both do, and then leaves the same reader. *)
Theorem Unread_additive u (a b : Z) :
  0 <= a -> 0 <= b -> 0 <= pending u ->
  pending u + a + b <= Int64.max_int ->
  (snd (Unread u (a + b)) = None <->
     snd (Unread u a) = None /\ snd (Unread (fst (Unread u a)) b) = None) /\
  (snd (Unread u (a + b)) = None ->
     fst (Unread (fst (Unread u a)) b) = fst (Unread u (a + b))).
Proof.
  intros Ha Hb Hp Hmax.
  assert (Hr : forall x, 0 <= x <= pending u + a + b -> Int64.wrap x = x).
  { intros x Hx. apply wrap_small.
    unfold Int64.in_range, Int64.min_int, Int64.max_int in *. lia. }
  assert (Sab : Int64.sub (bytesRead u) (Int64.sub (cursor u) (a + b))
                = pending u + a + b).
  { rewrite sub_sub_r. fold (pending u). rewrite Z.add_assoc. apply Hr. lia. }
  assert (Sa : Int64.sub (bytesRead u) (Int64.sub (cursor u) a)
               = pending u + a).
  { rewrite sub_sub_r. fold (pending u). apply Hr. lia. }
  assert (Sb : Int64.sub (bytesRead u)
                 (Int64.sub (Int64.sub (cursor u) a) b) = pending u + a + b).
  { rewrite sub_sub_r, Sa. apply Hr. lia. }
  assert (Ec : Int64.sub (Int64.sub (cursor u) a) b
               = Int64.sub (cursor u) (a + b)).
  { unfold Int64.sub. rewrite wrap_wrap_sub. f_equal. lia. }
  unfold Unread. rewrite Sab, Sa.
  destruct (Z.ltb_spec (circbuf.TotalWritten (cb u)) (pending u + a + b));
    destruct (Z.ltb_spec (circbuf.Size (cb u)) (pending u + a + b));
    destruct (Z.ltb_spec (circbuf.TotalWritten (cb u)) (pending u + a));
    destruct (Z.ltb_spec (circbuf.Size (cb u)) (pending u + a));
    cbn [fst snd cb bytesRead cursor set_cursor]; rewrite ?Sa, ?Sb;
    repeat match goal with
           | |- context [?x <? ?y] => destruct (Z.ltb_spec x y)
           end;
    cbn [fst snd]; try lia;
    (split; [split; [intros Hx; try discriminate Hx; auto
                    | intros [Hx Hy]; try discriminate Hx;
                      try discriminate Hy; auto]
            | intros Hx; try discriminate Hx]).
  unfold set_cursor. cbn [cb rd bytesRead runeBuf runePos]. now rewrite Ec.
Qed.

(** ** Read, rewind, read again *)

Lemma rewind_replay u stream log (c : Z) u1 p :
  coherent u stream log ->
  1 <= c -> pending u + c <= Int64.max_int ->
  Unread u c = (u1, None) -> len p = c ->
  Read u1 p = Return u (lastn (Z.to_nat c) log, c, None) /\
  runeBuf u1 = runeBuf u /\ runePos u1 = runePos u.
Proof.
  intros Hco Hc Hmax HU Hp.
  assert (H0 : 0 <= c) by lia.
  destruct (Unread_coherent _ _ _ _ _ Hco H0 Hmax HU)
    as (Hu1 & Hp1 & Hcl & Hco1).
  destruct (coherent_window _ _ _ Hco) as (_ & _ & Hll).
  pose proof Hco as (_ & _ & _ & _ & Hcur & Hpe & Hlog).
  assert (Hpos : 0 < pending u1) by lia.
  assert (Hne : len p <> 0) by lia.
  destruct (Read_replay _ _ _ p Hco1 Hpos Hne) as (HR & Hg & _ & _).
  cbv zeta in HR, Hg. rewrite Hp1 in HR, Hg.
  assert (Hm : Nat.min (length p) (Z.to_nat (pending u + c)) = Z.to_nat c)
    by (unfold len in *; lia).
  rewrite Hm in HR, Hg.
  assert (Hlast : lastn (Z.to_nat c) log
                  = firstn (Z.to_nat c)
                      (skipn (length stream - Z.to_nat (pending u + c))
                         stream)).
  { unfold lastn. rewrite Hll. rewrite Hlog at 1.
    rewrite skipn_firstn_comm. unfold len in *.
    f_equal; [|f_equal]; lia. }
  assert (Hback : set_cursor u1 (Int64.add (cursor u1) (Z.of_nat (Z.to_nat c)))
                  = u).
  { rewrite Hu1. unfold set_cursor. simpl. unfold Int64.add, Int64.sub.
    rewrite wrap_wrap_add.
    replace (cursor u - c + Z.of_nat (Z.to_nat c)) with (cursor u) by lia.
    rewrite (wrap_small _ Hcur). destruct u; reflexivity. }
  split; [|rewrite Hu1; split; reflexivity].
  rewrite HR, Hback, <- Hlast.
  replace (skipn (Z.to_nat c) p) with (@nil Z)
    by (symmetry; apply skipn_all2; unfold len in *; lia).
  rewrite app_nil_r, Z2Nat.id by lia. reflexivity.
Qed.

(** X6.  In sound use, when [Read] has delivered [n >= 1] bytes and
    [Unread(n)] then succeeds, a [Read] into a span of length [n] delivers
    the same [n] bytes again, with no error, and puts the reader back into
    the state the first [Read] left. *)
Theorem Read_Unread_Read u log p u1 p1 (n : Z) err u2 q :
  consumed u log ->
  len p <= Int64.max_int ->
  Read u p = Return u1 (p1, n, err) ->
  1 <= n ->
  Unread u1 n = (u2, None) ->
  len q = n ->
  Read u2 q = Return u1 (slice p1 0 n, n, None).
Proof.
  intros Hcons Hlen HR Hn HU Hq.
  destruct (consumed_coherent _ _ Hcons) as [stream Hco].
  destruct (Read_frame _ _ _ _ _ _ HR) as (_ & _ & _ & Hnp & Hsl).
  assert (Hne : len p <> 0) by lia.
  pose proof Hco as (_ & _ & _ & _ & _ & Hpe & _).
  destruct (coherent_window _ _ _ Hco) as (Hwmax & _ & _).
  assert (Hnext : exists stream1,
             coherent u1 stream1 (log ++ slice p1 0 n) /\
             pending u1 + n <= Int64.max_int).
  { destruct (Z.eq_dec (pending u) 0) as [Ep|Ep].
    - destruct (Read_fresh _ _ _ p Hco Ep Hne) as (u' & HR' & Hc' & _ & Hp').
      cbv zeta in HR', Hc'. rewrite HR in HR'.
      injection HR' as <- -> -> _. rewrite slice_prefix.
      eexists. split; [exact Hc'|]. rewrite Hp'. lia.
    - assert (Hpos : 0 < pending u) by lia.
      destruct (Read_replay _ _ _ p Hco Hpos Hne) as (HR' & Hg & Hp' & Hc').
      cbv zeta in HR', Hg, Hp', Hc'. rewrite HR in HR'.
      injection HR' as -> -> ->.
      set (m := Nat.min _ _) in *. set (got := firstn m _) in *.
      assert (E : slice (got ++ skipn m p) 0 (Z.of_nat m) = got).
      { rewrite <- Hg. apply slice_prefix. }
      rewrite E. eexists. split; [exact Hc'|]. rewrite Hp'. lia. }
  destruct Hnext as (stream1 & Hco1 & Hmax).
  destruct (rewind_replay _ _ _ _ _ q Hco1 Hn Hmax HU Hq) as (HR2 & _).
  rewrite HR2. do 2 f_equal. f_equal.
  unfold lastn. rewrite length_app.
  replace (length log + length (slice p1 0 n) - Z.to_nat n)%nat
    with (length log + 0)%nat by (unfold len in Hsl; lia).
  rewrite skipn_app, Nat.add_0_r, skipn_all, Nat.sub_diag. reflexivity.
Qed.

(** ** LastBytes *)

(** X7.  A negative [n] makes [LastBytes] panic: the start index of the
    view then lies [-n] bytes after its end index.  (The reader is one
    whose pending span lies within the window, and the index arithmetic
    does not overflow.) *)
Theorem LastBytes_negative_panics u (n : Z) :
  n < 0 ->
  0 <= pending u <= len (Bytes u) ->
  len (Bytes u) - pending u - n <= Int64.max_int ->
  LastBytes u n = Panic u.
Proof.
  intros Hn Hp Hmax. unfold LastBytes. fold (pending u).
  set (b := Bytes u) in *. set (off := pending u) in *.
  unfold Int64.max_int in *.
  assert (E1 : Int64.sub (len b) off = len b - off).
  { apply wrap_small. unfold Int64.in_range, Int64.min_int, Int64.max_int.
    lia. }
  rewrite E1.
  assert (E2 : Int64.sub (len b - off) n = len b - off - n).
  { apply wrap_small. unfold Int64.in_range, Int64.min_int, Int64.max_int.
    lia. }
  rewrite E2.
  destruct (Z.gtb_spec (len b - off - n) 0); [|lia].
  replace (len b - off <? len b - off - n) with true
    by (symmetry; apply Z.ltb_lt; lia).
  rewrite orb_true_r. reflexivity.
Qed.

(** X8.  In sound use [LastBytes(n)], [n >= 0], returns the bytes most
    recently given to the caller and not unread since: the last
    [min(n, len(log), Size() - pending)] bytes of the log, and leaves the
    reader alone. *)
Theorem LastBytes_is_log_tail u log (n : Z) :
  consumed u log ->
  0 <= n <= Int64.max_int ->
  LastBytes u n
    = Return u
        (lastn (Z.to_nat (Z.min n (Z.min (len log)
                                     (circbuf.Size (cb u) - pending u))))
           log).
Proof.
  intros Hcons Hn. destruct (consumed_coherent _ _ Hcons) as [stream Hco].
  destruct (coherent_window _ _ _ Hco) as (Hwmax & Hle & Hll).
  destruct Hco as (Hsz & Hd & _ & _ & _ & Hp & Hlog).
  unfold LastBytes, Bytes, circbuf.Bytes, circbuf.Size. fold (pending u).
  set (b := circbuf.data (cb u)) in *. set (off := pending u) in *.
  assert (Hb : length b
               = Nat.min (Z.to_nat (circbuf.size (cb u))) (length stream))
    by (subst b; rewrite Hd; apply length_lastn).
  unfold Int64.max_int in *.
  assert (E1 : Int64.sub (len b) off = len b - off).
  { apply wrap_small. unfold Int64.in_range, Int64.min_int, Int64.max_int.
    lia. }
  rewrite E1.
  assert (E2 : Int64.sub (len b - off) n = len b - off - n).
  { apply wrap_small. unfold Int64.in_range, Int64.min_int, Int64.max_int.
    lia. }
  rewrite E2.
  set (k := Z.min n (Z.min (len log) (circbuf.size (cb u) - off))).
  assert (Hk : k = Z.min n (len b - off)) by (unfold len in *; subst k; lia).
  set (s := if len b - off - n >? 0 then len b - off - n else 0).
  assert (Hs : s = len b - off - k).
  { subst s. destruct (Z.gtb_spec (len b - off - n) 0); lia. }
  replace ((s <? 0) || (len b - off <? s) || (len b <? len b - off))
    with false.
  2:{ symmetry. rewrite !orb_false_iff. repeat split; apply Z.ltb_ge; lia. }
  f_equal. unfold slice, lastn. rewrite Hll. rewrite Hlog at 1.
  rewrite skipn_firstn_comm.
  assert (Eb : b = skipn (length stream - length b) stream).
  { rewrite Hd at 1. unfold lastn. f_equal. lia. }
  assert (Es : skipn (Z.to_nat s) b
               = skipn (Z.to_nat s + (length stream - length b)) stream).
  { rewrite <- skipn_skipn, <- Eb. reflexivity. }
  rewrite Es. unfold len in *.
  f_equal; [|f_equal]; lia.
Qed.

(** ** A fresh reader *)

(** X9.  [NewUnreader] fails exactly when the capacity is not positive.
    The reader it returns has nothing to rewind over and nothing to look
    back at: every [Unread(c)] with [c > 0] is refused with the
    total-written error and changes nothing, and every [LastBytes(n)] with
    [n >= 0] is empty. *)
Theorem NewUnreader_fresh (size : Z) (r : S) :
  (size <= 0 <-> exists e, NewUnreader size r = inr e) /\
  forall u, NewUnreader size r = inl u ->
    Cursor u = 0 /\ BytesRead u = 0 /\ Bytes u = [] /\ rd u = r /\
    (forall c, 0 < c <= Int64.max_int ->
       Unread u c = (u, Some (Errorf "cursor < total bytes written"))) /\
    (forall n, 0 <= n <= Int64.max_int -> LastBytes u n = Return u []).
Proof.
  unfold NewUnreader, circbuf.NewBuffer.
  destruct (Z.leb_spec size 0) as [Hs|Hs]; split.
  - split; [intros _; eexists; reflexivity | intros _; exact Hs].
  - intros u [=].
  - split; [lia | intros [e [=]]].
  - intros u [= <-]. repeat split.
    + intros c Hc. unfold Unread. cbn [cb cursor bytesRead].
      assert (E : Int64.sub 0 (Int64.sub 0 c) = c).
      { rewrite sub_sub_r, sub_self. apply wrap_small.
        unfold Int64.in_range, Int64.min_int, Int64.max_int in *. lia. }
      rewrite E. unfold circbuf.TotalWritten. cbn [circbuf.written].
      destruct (Z.ltb_spec 0 c); [reflexivity | lia].
    + intros n Hn. unfold LastBytes, Bytes, circbuf.Bytes.
      cbn [cb cursor bytesRead circbuf.data].
      change (len (@nil Z)) with 0. rewrite sub_self.
      change (Int64.sub 0 0) with 0.
      assert (E : Int64.sub 0 n = - n).
      { apply wrap_small.
        unfold Int64.in_range, Int64.min_int, Int64.max_int in *. lia. }
      rewrite E. destruct (Z.gtb_spec (- n) 0); [lia|]. reflexivity.
Qed.

(** ** ReadRune: what is gathered and what is decoded *)

Lemma Read_cursor u p u' p' n err :
  Read u p = Return u' (p', n, err) -> len p <> 0 ->
  cursor u' = Int64.add (cursor u) n.
Proof.
  unfold Read. destruct (Z.eqb_spec (len p) 0); [contradiction|].
  destruct (cursor u =? bytesRead u).
  - destruct (rd_Read (rd u) (length p)) as [[chunk e] r'].
    intros [= <- _ <- _] _. reflexivity.
  - destruct (_ || _); [discriminate|]. unfold copy.
    intros [= <- _ <- _] _. reflexivity.
Qed.

Lemma runeBuf_view_snoc u k :
  0 <= k -> runeBuf_view u 0 (k + 1) = runeBuf_view u 0 k ++ [runeBuf u k].
Proof.
  intros Hk. unfold runeBuf_view. rewrite !Z.sub_0_r.
  replace (Z.to_nat (k + 1)) with (Z.to_nat k + 1)%nat by lia.
  rewrite seq_app, map_app. simpl. rewrite Z2Nat.id by lia. reflexivity.
Qed.

Lemma firstn_seq_le (j a k : nat) :
  (j <= k)%nat -> firstn j (seq a k) = seq a j.
Proof.
  revert a k. induction j as [|j IH]; intros a k Hj; [reflexivity|].
  destruct k as [|k]; [lia|]. simpl. f_equal. apply IH. lia.
Qed.

Lemma runeBuf_view_firstn u k (j : nat) :
  (Z.of_nat j <= k) ->
  firstn j (runeBuf_view u 0 k) = runeBuf_view u 0 (Z.of_nat j).
Proof.
  intros Hj. unfold runeBuf_view. rewrite !Z.sub_0_r, Nat2Z.id.
  rewrite firstn_map, firstn_seq_le by lia. reflexivity.
Qed.

Lemma gathered_snoc tr c : gathered (tr ++ [c]) = gathered tr ++ call_bytes c.
Proof.
  unfold gathered. rewrite map_app, concat_app. simpl.
  now rewrite app_nil_r.
Qed.

Lemma one_slice p (n : Z) :
  length p = 1%nat -> len (slice p 0 n) = 1 -> slice p 0 n = [nth 0 p 0].
Proof.
  destruct p as [|x [|y p]]; try discriminate. intros _.
  unfold slice, len. rewrite Z.sub_0_r. simpl.
  destruct (Z.to_nat n); simpl; [discriminate | now rewrite firstn_nil].
Qed.

(** The loop stores each byte delivered where the next one is expected,
    and moves the cursor by what was delivered. *)
Lemma ReadRune_loop_gathered fuel : forall u tr o tr',
  runePos u = len tr -> Int64.in_range (cursor u) ->
  (one_byte_each tr -> runeBuf_view u 0 (len tr) = gathered tr) ->
  ReadRune_loop fuel u tr = (o, tr') ->
  (exists ext, tr' = tr ++ ext /\
     cursor (state_of o) = Int64.add (cursor u) (len (gathered ext))) /\
  (one_byte_each tr' ->
     runeBuf_view (state_of o) 0 (len tr') = gathered tr').
Proof.
  assert (Hnil : forall u, Int64.in_range (cursor u) ->
            cursor u = Int64.add (cursor u) (len (gathered []))).
  { intros u Hc. unfold Int64.add. change (len (gathered [])) with 0.
    rewrite Z.add_0_r. symmetry. now apply wrap_small. }
  induction fuel as [|fuel IH]; intros u tr o tr' Hpos Hc Hg; simpl;
    destruct (_ && _) eqn:G;
    try (intros [= <- <-]; split;
         [exists []; rewrite app_nil_r; split; [reflexivity | now apply Hnil]
         | exact Hg]).
  destruct (_ || _).
  { intros [= <- <-]. split; [|exact Hg].
    exists []. rewrite app_nil_r. split; [reflexivity | now apply Hnil]. }
  set (p := runeBuf_view u (runePos u) (runePos u + 1)).
  assert (Hp : len p = 1) by (subst p; rewrite len_runeBuf_view; lia).
  destruct (Read u p) as [u1 [[p' n] err] | u1] eqn:ER.
  2:{ assert (u1 = u).
      { revert ER. unfold Read.
        destruct (len p =? 0); [discriminate|].
        destruct (cursor u =? bytesRead u).
        - destruct (rd_Read (rd u) (length p)) as [[? ?] ?]. discriminate.
        - destruct (_ || _); [now intros [= <-]|].
          destruct (copy p _). discriminate. }
      subst u1. intros [= <- <-]. split; [|exact Hg].
      exists []. rewrite app_nil_r. split; [reflexivity | now apply Hnil]. }
  destruct (Read_frame _ _ _ _ _ _ ER) as (Hb & Hr & Hl & Hn & Hsl).
  assert (Hcur : cursor u1 = Int64.add (cursor u) n)
    by (apply (Read_cursor _ _ _ _ _ _ ER); lia).
  set (c := mkReadCall (len p) (slice p' 0 n) err).
  assert (Hlen' : len (tr ++ [c]) = len tr + 1)
    by (rewrite len_app; reflexivity).
  assert (Hview : forall v : unreader S,
             (forall i, runeBuf v i
                        = if i =? runePos u then nth 0 p' 0 else runeBuf u i) ->
             one_byte_each (tr ++ [c]) ->
             runeBuf_view v 0 (len (tr ++ [c])) = gathered (tr ++ [c])).
  { intros v Hv Hone. apply Forall_app in Hone. destruct Hone as [H1 H2].
    inversion H2 as [|? ? Hc1 _]; subst. simpl in Hc1.
    rewrite Hlen', gathered_snoc, runeBuf_view_snoc by apply len_nonneg.
    f_equal.
    - rewrite <- (Hg H1). apply map_ext_in. intros i Hi.
      apply in_seq in Hi. rewrite Hv.
      destruct (Z.eqb_spec (0 + Z.of_nat i) (runePos u)); [lia | reflexivity].
    - rewrite Hv, Hpos, Z.eqb_refl. simpl.
      rewrite one_slice; [reflexivity | | exact Hc1].
      unfold len in Hp. lia. }
  assert (Hcur' : forall g,
             Int64.add (Int64.add (cursor u) n) g
             = Int64.add (cursor u) (len (gathered [c]) + g)).
  { intros g. unfold Int64.add. rewrite wrap_wrap_add. f_equal.
    unfold gathered. simpl. rewrite app_nil_r, Hsl. lia. }
  destruct err as [e|].
  - intros [= <- <-]. split.
    + exists [c]. split; [reflexivity|]. cbn [state_of cursor set_runeBuf].
      rewrite Hcur. specialize (Hcur' 0). rewrite Z.add_0_r in Hcur'.
      rewrite <- Hcur'. unfold Int64.add. rewrite Z.add_0_r.
      symmetry. apply wrap_small, wrap_range.
    + apply Hview. intros i. cbn [state_of runeBuf set_runeBuf].
      now rewrite Hb, Hr.
  - intros HL. eapply IH in HL.
    + destruct HL as ((ext & -> & Hcx) & Hgx). split; [|exact Hgx].
      exists (c :: ext). rewrite <- app_assoc. split; [reflexivity|].
      rewrite Hcx. cbn [cursor set_runePos set_runeBuf]. rewrite Hcur, Hcur'.
      f_equal. change (c :: ext) with ([c] ++ ext).
      unfold gathered. rewrite map_app, concat_app, len_app. reflexivity.
    + cbn [runePos set_runePos set_runeBuf]. rewrite Hr, Hpos, Hlen'.
      unfold Int64.add. apply wrap_small.
      pose proof (len_nonneg tr) as H0.
      apply andb_prop in G. destruct G as [_ G]. apply Z.ltb_lt in G.
      rewrite Hpos in G.
      unfold Int64.in_range, Int64.min_int, Int64.max_int, utf8.MaxRune in *.
      lia.
    + cbn [cursor set_runePos set_runeBuf]. rewrite Hcur. apply wrap_range.
    + apply Hview. intros i. cbn [runeBuf set_runePos set_runeBuf].
      now rewrite Hb, Hr.
Qed.

Lemma len_gathered_one tr : one_byte_each tr -> len (gathered tr) = len tr.
Proof.
  induction 1 as [|c tr Hc _ IH]; [reflexivity|].
  change (gathered (c :: tr)) with (call_bytes c ++ gathered tr).
  rewrite len_app, Hc, IH, len_cons. lia.
Qed.

Lemma ReadRune_traced_gathered u :
  Int64.in_range (cursor u) ->
  cursor (state_of (fst (ReadRune_traced u)))
    = Int64.add (cursor u) (len (gathered (snd (ReadRune_traced u)))) /\
  (one_byte_each (snd (ReadRune_traced u)) ->
   runeBuf_view (state_of (fst (ReadRune_traced u))) 0
     (len (snd (ReadRune_traced u)))
   = gathered (snd (ReadRune_traced u))).
Proof.
  intros Hc.
  destruct (ReadRune_traced_loop u) as (ol & HL & _ & Ho).
  apply ReadRune_loop_gathered in HL; try (exact Hc); try reflexivity.
  assert (Hs : state_of (fst (ReadRune_traced u)) = state_of ol).
  { rewrite Ho. destruct ol as [u' [e|] | u']; try reflexivity.
    simpl. destruct (utf8.DecodeRune _). reflexivity. }
  rewrite Hs. destruct HL as ((ext & Hext & Hcur) & Hg).
  simpl in Hext. subst ext. split; [exact Hcur | exact Hg].
Qed.

Lemma ReadRune_decode u u' (r size : Z) tr :
  ReadRune_traced u = (Return u' (r, size, None), tr) ->
  utf8.DecodeRune (runeBuf_view u' 0 (len tr)) = (r, size) /\
  (size = len tr \/ (r = utf8.RuneError /\ size = 1)).
Proof.
  intros HR.
  destruct (ReadRune_traced_loop u) as (ol & _ & HP & Ho).
  rewrite HR in Ho, HP. cbn [fst snd] in Ho, HP.
  destruct ol as [u1 [e|] | u1]; try discriminate.
  destruct HP as (Hlen & _ & _ & Hpos & Hfull & Hshort).
  pose proof (len_nonneg tr) as H0.
  rewrite Hpos, runeBuf_view_snoc, (DecodeRune_app _ _ Hfull) in Ho
    by exact H0.
  destruct (utf8.DecodeRune (runeBuf_view u1 0 (len tr))) as [r1 s1] eqn:ED.
  injection Ho as <- <- <-. split; [exact ED|].
  destruct (DecodeRune_full_width (runeBuf_view u' 0 (len tr)) Hfull)
    as [Hw|Hw].
  - intros j Hj. unfold runeBuf_view in Hj.
    rewrite length_map, length_seq in Hj.
    rewrite runeBuf_view_firstn by lia. apply Hshort. lia.
  - left. rewrite ED in Hw. simpl in Hw. rewrite Hw.
    rewrite len_runeBuf_view by lia. lia.
  - right. rewrite ED in Hw. injection Hw as -> ->. auto.
Qed.

(** X10.  When [ReadRune] returns no error, the rune and size it returns
    are the decoding of the scratch bytes [runeBuf[:k]], [k] the number of
    its calls of [Read]: the further byte [runeBuf[k]] that the code hands
    to [utf8.DecodeRune] has no influence.  The size is [k], unless the
    result is the error rune with size 1. *)
Theorem ReadRune_decodes_scratch u :
  match fst (ReadRune_traced u) with
  | Return u' (r, size, None) =>
      let k := len (snd (ReadRune_traced u)) in
      utf8.DecodeRune (runeBuf_view u' 0 k) = (r, size) /\
      (size = k \/ (r = utf8.RuneError /\ size = 1))
  | _ => True
  end.
Proof.
  destruct (ReadRune_traced u) as [o tr] eqn:HR.
  destruct o as [u' [[r size] [e|]] | u']; try exact I.
  exact (ReadRune_decode _ _ _ _ _ HR).
Qed.

(** X11.  [ReadRune] moves the cursor by exactly the bytes its calls of
    [Read] delivered, whatever it returns: bytes read before an error are
    not given back. *)
Theorem ReadRune_cursor_advance u :
  Int64.in_range (Cursor u) ->
  Cursor (state_of (ReadRune u))
    = Int64.add (Cursor u) (len (gathered (snd (ReadRune_traced u)))).
Proof.
  intros Hc. exact (proj1 (ReadRune_traced_gathered u Hc)).
Qed.

(** X12.  When [ReadRune] returns a rune other than the error rune, with
    no error, and each of its calls of [Read] delivered its byte, then the
    bytes delivered decode to that rune, their number is the size
    returned, and the cursor has advanced by exactly that size. *)
Theorem ReadRune_consumes_its_size u u' (r size : Z) tr :
  Int64.in_range (Cursor u) ->
  ReadRune_traced u = (Return u' (r, size, None), tr) ->
  one_byte_each tr ->
  r <> utf8.RuneError ->
  utf8.DecodeRune (gathered tr) = (r, size) /\
  len (gathered tr) = size /\
  Cursor u' = Int64.add (Cursor u) size.
Proof.
  intros Hc HR Hone Hr.
  destruct (ReadRune_traced_gathered u Hc) as (Hcur & Hg).
  rewrite HR in Hcur, Hg. cbn [fst snd state_of] in Hcur, Hg.
  specialize (Hg Hone).
  destruct (ReadRune_decode _ _ _ _ _ HR) as (HD & [Hs|[Hs _]]);
    [|contradiction].
  pose proof (len_gathered_one _ Hone) as Hl.
  split; [rewrite <- Hg; exact HD|]. split; [lia|].
  unfold Cursor. rewrite Hcur, Hl, Hs. reflexivity.
Qed.

(** ** ReadRune, rewind, ReadRune again *)

Lemma firstn1_skipn (i : nat) (l : list Z) :
  (i < length l)%nat -> firstn 1 (skipn i l) = [nth i l 0].
Proof.
  revert l. induction i as [|i IH]; intros [|x l] Hi; simpl in *; try lia.
  - reflexivity.
  - apply IH. lia.
Qed.

Lemma nth_runeBuf_view u k (j : nat) :
  Z.of_nat j < k -> nth j (runeBuf_view u 0 k) 0 = runeBuf u (Z.of_nat j).
Proof.
  intros Hj. unfold runeBuf_view. rewrite Z.sub_0_r.
  rewrite (nth_indep _ 0 (runeBuf u (0 + Z.of_nat 0)))
    by (rewrite length_map, length_seq; lia).
  rewrite (map_nth (fun i => runeBuf u (0 + Z.of_nat i))), seq_nth by lia.
  reflexivity.
Qed.

Section ReplayRune.

(** The reader [u'] has just gathered the [k] bytes [runeBuf[:k]], a full
    rune of which no shorter prefix is one; they end its log, and a rewind
    over them is within the retained window. *)
Variables (u' : unreader S) (stream base : list byte) (k : Z).
Hypothesis Hco : coherent u' stream (base ++ runeBuf_view u' 0 k).
Hypothesis Hk : 0 <= k <= utf8.UTFMax.
Hypothesis Hfull : utf8.FullRune (runeBuf_view u' 0 k) = true.
Hypothesis Hshort : unfinished u' k.
Hypothesis Hwin : pending u' + k <= len (circbuf.data (cb u')).

Lemma ReadRune_loop_replay fuel : forall (j : Z) (v : unreader S) tr0,
  k - j <= Z.of_nat fuel -> 0 <= j <= k ->
  runePos v = j -> cb v = cb u' -> rd v = rd u' ->
  bytesRead v = bytesRead u' ->
  cursor v = Int64.sub (cursor u') (k - j) ->
  (forall i, runeBuf v i = runeBuf u' i) ->
  exists v' tr',
    ReadRune_loop fuel v tr0 = (Return v' None, tr') /\
    runePos v' = k /\ cb v' = cb u' /\ rd v' = rd u' /\
    bytesRead v' = bytesRead u' /\ cursor v' = cursor u' /\
    (forall i, runeBuf v' i = runeBuf u' i).
Proof.
  destruct (coherent_window _ _ _ Hco) as (Hwmax & Hle & Hll).
  pose proof Hco as (Hsz & Hd & Hw & Hb & Hcu & Hpe & Hlog).
  unfold utf8.UTFMax, Int64.max_int in *.
  assert (Hview : forall (v : unreader S) lo hi,
             (forall i, runeBuf v i = runeBuf u' i) ->
             runeBuf_view v lo hi = runeBuf_view u' lo hi).
  { intros v lo hi Hv. apply runeBuf_view_ext. intros i _. apply Hv. }
  assert (Hdone : forall fuel (v : unreader S) tr0,
             runePos v = k -> cb v = cb u' -> rd v = rd u' ->
             bytesRead v = bytesRead u' ->
             cursor v = Int64.sub (cursor u') (k - k) ->
             (forall i, runeBuf v i = runeBuf u' i) ->
             exists v' tr',
               ReadRune_loop fuel v tr0 = (Return v' None, tr') /\
               runePos v' = k /\ cb v' = cb u' /\ rd v' = rd u' /\
               bytesRead v' = bytesRead u' /\ cursor v' = cursor u' /\
               (forall i, runeBuf v' i = runeBuf u' i)).
  { intros f v tr0 Hp Hcb Hrd Hbr Hcur Hv. exists v, tr0.
    assert (E : cursor v = cursor u').
    { rewrite Hcur, Z.sub_diag. unfold Int64.sub. rewrite Z.sub_0_r.
      now apply wrap_small. }
    split; [|now repeat split].
    destruct f; simpl; rewrite Hp, (Hview v 0 k Hv), Hfull; reflexivity. }
  induction fuel as [|fuel IH]; intros j v tr0 Hf Hj Hp Hcb Hrd Hbr Hcur Hv.
  { assert (Ej : j = k) by lia. rewrite Ej in *. now apply Hdone. }
  destruct (Z.eq_dec j k) as [Ej|Hne];
    [rewrite Ej in *; now apply Hdone|].
  assert (Hlt : j < k) by lia.
  (* the reader [v] is coherent, with [k - j] more bytes pending *)
  assert (Hpv : pending v = pending u' + (k - j)).
  { unfold pending. rewrite Hbr, Hcur, sub_sub_r. fold (pending u').
    apply wrap_small. unfold Int64.in_range, Int64.min_int, Int64.max_int.
    lia. }
  assert (Hcv : coherent v stream
                  (firstn (length stream - Z.to_nat (pending v)) stream)).
  { unfold coherent. rewrite Hcb, Hbr, Hpv.
    split; [exact Hsz|]. split; [exact Hd|]. split; [exact Hw|].
    split; [exact Hb|]. split; [rewrite Hcur; apply wrap_range|].
    split; [lia | reflexivity]. }
  set (p := runeBuf_view v j (j + 1)).
  assert (Hlp : len p = 1) by (subst p; rewrite len_runeBuf_view; lia).
  assert (Hpos : 0 < pending v) by lia.
  assert (Hnz : len p <> 0) by lia.
  destruct (Read_replay _ _ _ p Hcv Hpos Hnz) as (HR & _ & _ & _).
  cbv zeta in HR.
  assert (Hm : Nat.min (length p) (Z.to_nat (pending v)) = 1%nat)
    by (unfold len in Hlp; lia).
  rewrite Hm in HR.
  (* the byte replayed is the one gathered at index [j] *)
  assert (Hbase : length base = (length stream - Z.to_nat (pending u')
                                 - Z.to_nat k)%nat).
  { rewrite length_app in Hll. unfold runeBuf_view in Hll.
    rewrite length_map, length_seq, Z.sub_0_r in Hll. lia. }
  assert (Hbyte : firstn 1 (skipn (length stream - Z.to_nat (pending v)) stream)
                  = [runeBuf u' j]).
  { unfold len in *. rewrite firstn1_skipn by lia. f_equal.
    rewrite Hpv.
    replace (length stream - Z.to_nat (pending u' + (k - j)))%nat
      with (length base + Z.to_nat j)%nat by lia.
    rewrite <- (firstn_skipn (length stream - Z.to_nat (pending u')) stream)
      at 1.
    rewrite <- Hlog, app_nth1
      by (rewrite length_app; unfold runeBuf_view;
          rewrite length_map, length_seq; lia).
    rewrite app_nth2, Nat.add_comm, Nat.add_sub by lia.
    rewrite nth_runeBuf_view by lia. f_equal. lia. }
  rewrite Hbyte in HR.
  (* one turn of the loop *)
  simpl. rewrite Hp, (Hview v 0 j Hv), (Hshort j) by lia. simpl.
  replace (j <? utf8.MaxRune) with true
    by (symmetry; apply Z.ltb_lt; unfold utf8.MaxRune; lia).
  replace ((j <? 0) || (utf8.MaxRune <? j + 1)) with false
    by (symmetry; apply orb_false_iff; split; apply Z.ltb_ge;
        unfold utf8.MaxRune; lia).
  fold p. rewrite HR. cbn [runePos set_cursor set_runeBuf nth app].
  rewrite Hp.
  apply (IH (j + 1)); cbn [runePos cb rd bytesRead cursor runeBuf
                             set_cursor set_runeBuf set_runePos];
    try assumption; try lia.
  - unfold Int64.add. apply wrap_small.
    unfold Int64.in_range, Int64.min_int, Int64.max_int. lia.
  - rewrite Hcur. unfold Int64.add, Int64.sub.
    rewrite wrap_wrap_add. f_equal. lia.
  - intros i. destruct (Z.eqb_spec i j) as [->|_]; [reflexivity | apply Hv].
Qed.

End ReplayRune.

(** X13.  In sound use, when [ReadRune] has returned a rune other than
    the error rune, each of its calls of [Read] having delivered its byte,
    and [Unread(size)] then succeeds, the next [ReadRune] returns the same
    rune and size, replayed from the buffer: the source, the buffer and
    the fetch counter are as the first call left them, and so are the
    cursor and the scratch bytes. *)
Theorem ReadRune_Unread_ReadRune u log u' (r size : Z) tr u1 :
  consumed u log ->
  ReadRune_traced u = (Return u' (r, size, None), tr) ->
  one_byte_each tr ->
  r <> utf8.RuneError ->
  pending u' + size <= Int64.max_int ->
  Unread u' size = (u1, None) ->
  exists u2,
    ReadRune u1 = Return u2 (r, size, None) /\
    Cursor u2 = Cursor u' /\ BytesRead u2 = BytesRead u' /\
    rd u2 = rd u' /\ cb u2 = cb u' /\
    (forall i, runeBuf u2 i = runeBuf u' i).
Proof.
  intros Hcons HR Hone Hr Hmax HU.
  destruct (consumed_coherent _ _ Hcons) as [stream Hco].
  pose proof Hco as (_ & _ & _ & _ & Hcu & _).
  (* the first call *)
  destruct (ReadRune_traced_coherent _ _ _ Hco) as [stream' Hco'].
  destruct (ReadRune_traced_gathered u Hcu) as (_ & Hg).
  rewrite HR in Hco', Hg. cbn [fst snd state_of] in Hco', Hg.
  specialize (Hg Hone). fold (gathered tr) in Hco'. rewrite <- Hg in Hco'.
  destruct (ReadRune_decode _ _ _ _ _ HR) as (HD & [Hs|[Hs _]]);
    [|contradiction].
  destruct (ReadRune_traced_loop u) as (ol & _ & HP & Ho).
  rewrite HR in Ho, HP. cbn [fst snd] in Ho, HP.
  destruct ol as [u0 [e|] | u0]; try discriminate.
  assert (u0 = u').
  { revert Ho.
    destruct (utf8.DecodeRune (runeBuf_view u0 0 (runePos u0 + 1))).
    intros E.
    inversion E. reflexivity. }
  subst u0. destruct HP as (Hlen & _ & _ & Hpos & Hfull & Hshort).
  pose proof (len_nonneg tr) as H0.
  (* the rewind *)
  assert (Hsz0 : 0 <= size) by lia.
  destruct (Unread_coherent _ _ _ _ _ Hco' Hsz0 Hmax HU)
    as (Hu1 & Hp1 & _ & Hco1).
  pose proof Hco1 as (_ & _ & _ & _ & _ & Hpe1 & _).
  rewrite Hp1, Hu1 in Hpe1. cbn [cb set_cursor] in Hpe1.
  (* the second call *)
  assert (Hk : 0 <= len tr <= utf8.UTFMax) by lia.
  assert (Hwin : pending u' + len tr <= len (circbuf.data (cb u'))) by lia.
  destruct (ReadRune_loop_replay u' stream' log (len tr)
              Hco' Hk Hfull Hshort Hwin
              (Z.to_nat utf8.MaxRune) 0 (set_runePos u1 0) [])
    as (v' & tr' & HL & Hpv & Hcb & Hrd & Hbr & Hcur & Hv);
    try (rewrite Hu1; reflexivity).
  { rewrite Z2Nat.id by (unfold utf8.MaxRune; lia).
    unfold utf8.UTFMax, utf8.MaxRune in *. lia. }
  { lia. }
  { rewrite Hu1. cbn [cursor set_runePos set_cursor].
    rewrite Z.sub_0_r, Hs. reflexivity. }
  exists v'. unfold ReadRune, ReadRune_traced. rewrite HL.
  replace (utf8.MaxRune <? runePos v' + 1) with false
    by (symmetry; apply Z.ltb_ge; rewrite Hpv;
        unfold utf8.UTFMax, utf8.MaxRune in *; lia).
  assert (Hsame : runeBuf_view v' 0 (runePos v' + 1)
                  = runeBuf_view u' 0 (len tr + 1)).
  { rewrite Hpv. apply runeBuf_view_ext. intros i _. apply Hv. }
  rewrite Hsame, runeBuf_view_snoc, (DecodeRune_app _ _ Hfull), HD by exact H0.
  cbn [fst]. repeat split; assumption.
Qed.
End MoreProperties.

(* ------------------------------------------------------------------ *)
(** * Further concrete runs *)

(** [hello16_read5] after [Unread(2)]: "lo" is pending, the log is "hel". *)
Lemma hello16_unread2_consumed :
  consumed (run hello16_read5 [CallUnread 2]) [104; 101; 108].
Proof.
  apply (consumed_Unread hello16_read5 [104; 101; 108; 108; 111] 2).
  - exact hello16_read5_consumed.
  - lia.
  - vm_compute. discriminate.
  - reflexivity.
Qed.

Lemma grin16_consumed : consumed grin16 [].
Proof.
  apply (consumed_New 16 [0xF0; 0x9F; 0x98; 0x80]);
    [vm_compute; discriminate | reflexivity].
Qed.

Lemma consumed_invariant_witness :
  0 <= pending (run hello16_read5 [CallUnread 2])
    <= len (Bytes (run hello16_read5 [CallUnread 2])) /\
  len (Bytes (run hello16_read5 [CallUnread 2]))
    <= circbuf.Size (cb (run hello16_read5 [CallUnread 2])) /\
  (Cursor (run hello16_read5 [CallUnread 2])
     = BytesRead (run hello16_read5 [CallUnread 2])
   <-> pending (run hello16_read5 [CallUnread 2]) = 0) /\
  Int64.in_range (Cursor (run hello16_read5 [CallUnread 2])) /\
  Int64.in_range (BytesRead (run hello16_read5 [CallUnread 2])).
Proof.
  apply (consumed_invariant (run hello16_read5 [CallUnread 2]) [104; 101; 108]).
  exact hello16_unread2_consumed.
Defined.

Lemma Bytes_retains_tail_witness :
  exists ahead,
    len ahead = pending (run hello16_read5 [CallUnread 2]) /\
    Bytes (run hello16_read5 [CallUnread 2])
      = lastn (Z.to_nat (circbuf.Size (cb (run hello16_read5 [CallUnread 2]))))
          ([104; 101; 108] ++ ahead).
Proof.
  apply (Bytes_retains_tail (run hello16_read5 [CallUnread 2]) [104; 101; 108]).
  exact hello16_unread2_consumed.
Defined.

(** With "lo" pending, a [Read] into five bytes delivers two. *)
Lemma Read_replay_short_witness :
  exists u' p',
    Read (run hello16_read5 [CallUnread 2]) [0; 0; 0; 0; 0]
      = Return u' (p', Z.min (len [0; 0; 0; 0; 0])
                         (pending (run hello16_read5 [CallUnread 2])), None) /\
    0 < pending (run hello16_read5 [CallUnread 2]) /\
    pending u' = pending (run hello16_read5 [CallUnread 2])
                 - Z.min (len [0; 0; 0; 0; 0])
                     (pending (run hello16_read5 [CallUnread 2])) /\
    rd u' = rd (run hello16_read5 [CallUnread 2]) /\
    cb u' = cb (run hello16_read5 [CallUnread 2]) /\
    BytesRead u' = BytesRead (run hello16_read5 [CallUnread 2]).
Proof.
  apply (Read_replay_short (run hello16_read5 [CallUnread 2]) [104; 101; 108]
           [0; 0; 0; 0; 0]).
  - exact hello16_unread2_consumed.
  - vm_compute. discriminate.
  - vm_compute. discriminate.
Defined.

(** After "hello", rewinding by 2 and then by 3 is rewinding by 5. *)
Lemma Unread_additive_witness :
  (snd (Unread hello16_read5 (2 + 3)) = None <->
     snd (Unread hello16_read5 2) = None /\
     snd (Unread (fst (Unread hello16_read5 2)) 3) = None) /\
  (snd (Unread hello16_read5 (2 + 3)) = None ->
     fst (Unread (fst (Unread hello16_read5 2)) 3)
     = fst (Unread hello16_read5 (2 + 3))).
Proof.
  apply (Unread_additive hello16_read5 2 3).
  - lia.
  - lia.
  - vm_compute. discriminate.
  - vm_compute. discriminate.
Defined.

Lemma Read_Unread_Read_witness :
  Read (fst (Unread hello16_read5 5)) [0; 0; 0; 0; 0]
    = Return hello16_read5 (slice [104; 101; 108; 108; 111] 0 5, 5, None).
Proof.
  apply (Read_Unread_Read hello16 [] [0; 0; 0; 0; 0] hello16_read5
           [104; 101; 108; 108; 111] 5 None
           (fst (Unread hello16_read5 5)) [0; 0; 0; 0; 0]).
  - apply (consumed_New 16 helloWorld); [vm_compute; discriminate | reflexivity].
  - vm_compute. discriminate.
  - reflexivity.
  - lia.
  - reflexivity.
  - reflexivity.
Defined.

Lemma LastBytes_negative_panics_witness :
  LastBytes hello16_read5 (-1) = Panic hello16_read5.
Proof.
  apply (LastBytes_negative_panics hello16_read5 (-1)).
  - lia.
  - vm_compute. split; discriminate.
  - vm_compute. discriminate.
Defined.

Lemma LastBytes_is_log_tail_witness :
  LastBytes (run hello16_read5 [CallUnread 2]) 2
    = Return (run hello16_read5 [CallUnread 2])
        (lastn (Z.to_nat
                  (Z.min 2
                     (Z.min (len [104; 101; 108])
                        (circbuf.Size (cb (run hello16_read5 [CallUnread 2]))
                         - pending (run hello16_read5 [CallUnread 2])))))
           [104; 101; 108]).
Proof.
  apply (LastBytes_is_log_tail (run hello16_read5 [CallUnread 2])
           [104; 101; 108] 2).
  - exact hello16_unread2_consumed.
  - vm_compute. split; discriminate.
Defined.

Lemma ReadRune_cursor_advance_witness :
  Cursor (state_of (ReadRune grin16))
    = Int64.add (Cursor grin16) (len (gathered (snd (ReadRune_traced grin16)))).
Proof.
  apply (ReadRune_cursor_advance grin16).
  vm_compute. split; discriminate.
Defined.

Lemma grin16_one_byte_each : one_byte_each (snd (ReadRune_traced grin16)).
Proof.
  unfold one_byte_each.
  replace (snd (ReadRune_traced grin16))
    with [mkReadCall 1 [0xF0] None; mkReadCall 1 [0x9F] None;
          mkReadCall 1 [0x98] None; mkReadCall 1 [0x80] None]
    by (vm_compute; reflexivity).
  repeat constructor.
Qed.

Lemma grin16_ReadRune :
  ReadRune_traced grin16
    = (Return (state_of (ReadRune grin16)) (0x1F600, 4, None),
       snd (ReadRune_traced grin16)).
Proof. vm_compute. reflexivity. Qed.

Lemma ReadRune_consumes_its_size_witness :
  utf8.DecodeRune (gathered (snd (ReadRune_traced grin16))) = (0x1F600, 4) /\
  len (gathered (snd (ReadRune_traced grin16))) = 4 /\
  Cursor (state_of (ReadRune grin16)) = Int64.add (Cursor grin16) 4.
Proof.
  apply (ReadRune_consumes_its_size grin16 (state_of (ReadRune grin16))
           0x1F600 4 (snd (ReadRune_traced grin16))).
  - vm_compute. split; discriminate.
  - exact grin16_ReadRune.
  - exact grin16_one_byte_each.
  - vm_compute. discriminate.
Defined.

Lemma ReadRune_Unread_ReadRune_witness :
  exists u2,
    ReadRune (fst (Unread (state_of (ReadRune grin16)) 4))
      = Return u2 (0x1F600, 4, None) /\
    Cursor u2 = Cursor (state_of (ReadRune grin16)) /\
    BytesRead u2 = BytesRead (state_of (ReadRune grin16)) /\
    rd u2 = rd (state_of (ReadRune grin16)) /\
    cb u2 = cb (state_of (ReadRune grin16)) /\
    (forall i, runeBuf u2 i = runeBuf (state_of (ReadRune grin16)) i).
Proof.
  apply (ReadRune_Unread_ReadRune grin16 [] (state_of (ReadRune grin16))
           0x1F600 4 (snd (ReadRune_traced grin16))
           (fst (Unread (state_of (ReadRune grin16)) 4))).
  - exact grin16_consumed.
  - exact grin16_ReadRune.
  - exact grin16_one_byte_each.
  - vm_compute. discriminate.
  - vm_compute. discriminate.
  - vm_compute. reflexivity.
Defined.

(* ------------------------------------------------------------------ *)
(** * Runs in which an unchecked count of Unread shows *)

(** C2.  "hello" has been read and one byte unread; the count
    [math.MaxInt64] is not negative and the span it implies,
    [bytesRead - (cursor - c)] = 2^63, exceeds both the capacity 16 and
    the total-written count 5.  Yet [Unread] returns no error and moves
    the cursor: its two subtractions wrap around and the tests see the
    span [math.MinInt64]. *)
Theorem Unread_accepts_span_beyond_capacity :
  reachable (run hello16_read5 [CallUnread 1]) /\
  0 <= Int64.max_int /\
  BytesRead (run hello16_read5 [CallUnread 1])
    - (Cursor (run hello16_read5 [CallUnread 1]) - Int64.max_int) = 2 ^ 63 /\
  circbuf.Size (cb (run hello16_read5 [CallUnread 1])) = 16 /\
  circbuf.TotalWritten (cb (run hello16_read5 [CallUnread 1])) = 5 /\
  Int64.sub (bytesRead (run hello16_read5 [CallUnread 1]))
      (Int64.sub (cursor (run hello16_read5 [CallUnread 1])) Int64.max_int)
    = Int64.min_int /\
  Unread (run hello16_read5 [CallUnread 1]) Int64.max_int
    = (set_cursor (run hello16_read5 [CallUnread 1]) (5 - 2 ^ 63), None).
Proof.
  repeat split; try reflexivity.
  - apply (hello16_reachable [CallRead [0; 0; 0; 0; 0]; CallUnread 1]).
  - vm_compute. discriminate.
Qed.

(** C3.  "hello" has been read and [Unread(-3)] accepted.  [Unread(4)]
    then succeeds, but the [Read] into a span of length 4 that follows
    delivers the single byte "o".  On a fresh reader [Unread(-1)] and then
    [Unread(1)] succeed, and the [Read] of one byte that follows is served
    by the source, not from the buffer. *)
Theorem Read_after_negative_Unread_is_no_replay :
  (reachable (run hello16_read5 [CallUnread (-3)]) /\
   Unread (run hello16_read5 [CallUnread (-3)]) 4
     = (run hello16_read5 [CallUnread (-3); CallUnread 4], None) /\
   Read (run hello16_read5 [CallUnread (-3); CallUnread 4]) [0; 0; 0; 0]
     = Return
         (run hello16_read5 [CallUnread (-3); CallUnread 4;
                             CallRead [0; 0; 0; 0]])
         ([111; 0; 0; 0], 1, None)) /\
  (reachable (run hello16 [CallUnread (-1)]) /\
   Unread (run hello16 [CallUnread (-1)]) 1
     = (run hello16 [CallUnread (-1); CallUnread 1], None) /\
   Read (run hello16 [CallUnread (-1); CallUnread 1]) [0]
     = Return (run hello16 [CallUnread (-1); CallUnread 1; CallRead [0]])
              ([104], 1, None) /\
   rd (run hello16 [CallUnread (-1); CallUnread 1]) = helloWorld /\
   rd (run hello16 [CallUnread (-1); CallUnread 1; CallRead [0]])
     = [101; 108; 108; 111; 32; 119; 111; 114; 108; 100]).
Proof.
  repeat split; try reflexivity.
  - apply (hello16_reachable [CallRead [0; 0; 0; 0; 0]; CallUnread (-3)]).
  - apply hello16_reachable.
Qed.

(** C7.  On a fresh reader of capacity 16 [Unread(-17)] is accepted and
    leaves [pending = -17] with an empty window.  [LastBytes(1)] then
    asks for the view [b[16:17]] and [LastBytes(0)] for [b[17:17]] of a
    window that holds no byte and whose buffer has 16: both panic. *)
Theorem LastBytes_panics_after_negative_Unread :
  Unread hello16 (-17) = (run hello16 [CallUnread (-17)], None) /\
  reachable (run hello16 [CallUnread (-17)]) /\
  pending (run hello16 [CallUnread (-17)]) = -17 /\
  Bytes (run hello16 [CallUnread (-17)]) = [] /\
  LastBytes (run hello16 [CallUnread (-17)]) 1
    = Panic (run hello16 [CallUnread (-17)]) /\
  LastBytes (run hello16 [CallUnread (-17)]) 0
    = Panic (run hello16 [CallUnread (-17)]).
Proof.
  repeat split; try reflexivity. apply hello16_reachable.
Qed.

(** ** The truncated rune *)

Lemma trunc16_gathering :
  gathering (set_runePos trunc16 0)
    [mkReadCall 1 [0xE2] None; mkReadCall 1 [0x82] None]
    trunc16_gathered.
Proof.
  apply (gathering_next (set_runePos trunc16 0)
           (state_of (Read (set_runePos trunc16 0) [0])) [0xE2] 1).
  - reflexivity.
  - vm_compute. split; [discriminate | reflexivity].
  - vm_compute. reflexivity.
  - apply (gathering_next (gather_next (set_runePos trunc16 0))
             (state_of (Read (gather_next (set_runePos trunc16 0)) [0]))
             [0x82] 1).
    + reflexivity.
    + vm_compute. split; [discriminate | reflexivity].
    + vm_compute. reflexivity.
    + apply gathering_stop.
Qed.

(** The source ends after [E2 82]: the third call of [Read] reports
    [EOF], and [ReadRune] returns [(0, 0, EOF)] at once. *)
Lemma ReadRune_propagates_error_witness :
  ReadRune_traced trunc16
  = (Return (set_runeBuf (state_of (Read trunc16_gathered [0]))
                         (runePos (state_of (Read trunc16_gathered [0])))
                         (nth 0 [0] 0))
            (0, 0, Some EOF),
     [mkReadCall 1 [0xE2] None; mkReadCall 1 [0x82] None]
       ++ [mkReadCall 1 (slice [0] 0 0) (Some EOF)]) /\
  cursor trunc16_gathered = bytesRead trunc16_gathered /\
  snd (fst (rd_Read (rd trunc16_gathered) 1%nat)) = Some EOF.
Proof.
  apply (proj1 (ReadRune_propagates_error trunc16)
           [mkReadCall 1 [0xE2] None; mkReadCall 1 [0x82] None]
           trunc16_gathered (state_of (Read trunc16_gathered [0])) [0] 0 EOF).
  - exact trunc16_gathering.
  - reflexivity.
  - vm_compute. reflexivity.
Defined.

